(** * Quoridor rules engine: grid, pawn moves, fence placement, reachability

    A shallow embedding of [quoridor/__init__.py].

    Every [Square] object of the program is created once, by [Board.__init__],
    at [table[y][x]] with coordinates [(x, y)], and is never replaced.  All
    other parts of the program (pawns, goal sequences, moves, the visited set
    of the search) hold references to these objects and compare them by
    identity.  A reference to a square is therefore modelled by the
    coordinate pair of the object, and the two mutable attributes of the
    object live in the table of the board: what one holder of a reference
    writes, every other holder reads. *)

From Stdlib Require Import ZArith Ascii String DecimalString Lia.
From stdpp Require Import gmap list strings sets relations.

Local Open Scope Z_scope.

(** ** Outcomes of a call

    A call returns, raises, or does not come back.  The last case is reported
    by the models that take fuel when the fuel runs out. *)

Inductive Exn : Type :=
  | ValueError
  | IndexError
  | TypeError
  | ZeroDivisionError
  | NotStarted.

Inductive Outcome (A : Type) : Type :=
  | Ret (a : A)
  | Raise (e : Exn)
  | OutOfFuel.

Arguments Ret {A} a.
Arguments Raise {A} e.
Arguments OutOfFuel {A}.

Definition bind {A B : Type} (m : Outcome A) (k : A → Outcome B) : Outcome B :=
  match m with
  | Ret a => k a
  | Raise e => Raise e
  | OutOfFuel => OutOfFuel
  end.

Notation "'do' x <- m ; k" := (bind m (fun x => k))
  (at level 10, x name, m at level 100, k at level 200).

(** ** Cardinal points *)

Inductive CardinalPoint : Type := WEST | EAST | NORTH | SOUTH.

Global Instance CardinalPoint_eq_dec : EqDecision CardinalPoint.
Proof. solve_decision. Defined.

(** Iteration order of the enumeration. *)
Definition CardinalPoints : list CardinalPoint := [WEST; EAST; NORTH; SOUTH].

Definition orthogonal_points (point : CardinalPoint) : list CardinalPoint :=
  match point with
  | NORTH | SOUTH => [WEST; EAST]
  | WEST | EAST => [NORTH; SOUTH]
  end.

(** ** Coordinates and squares *)

Record Coordinate : Type := Coord { x : Z; y : Z }.

Global Instance Coordinate_eq_dec : EqDecision Coordinate.
Proof. solve_decision. Defined.

Global Instance Coordinate_countable : Countable Coordinate.
Proof.
  refine (inj_countable' (fun c => (x c, y c)) (fun p => Coord p.1 p.2) _).
  by intros [].
Defined.

(** A reference to a [Square] object. *)
Abbreviation Square := Coordinate (only parsing).

(** The mutable attributes of a [Square] object. *)
Record SquareState : Type := SquareAttrs {
  horizontal_flag : bool;
  vertical_flag : bool
}.

Definition new_square : SquareState := SquareAttrs false false.

(** ** The board *)

Record Board : Type := mkBoard {
  width : Z;
  height : Z;
  table : list (list SquareState)
}.

(** [Board.__init__]: [height] rows of [width] fresh squares. *)
Definition Board_init (w h : Z) : Board :=
  mkBoard w h (replicate (Z.to_nat h) (replicate (Z.to_nat w) new_square)).

(** What [Board.__init__] establishes and the two [place_*] methods keep. *)
Definition Board_wf (b : Board) : Prop :=
  length (table b) = Z.to_nat (height b) ∧
  Forall (fun row => length row = Z.to_nat (width b)) (table b).

Definition in_bounds (b : Board) (sq : Square) : Prop :=
  0 ≤ x sq < width b ∧ 0 ≤ y sq < height b.

(** [Board.get(y, x)]: the square at the coordinate, or [None] off the
    board. *)
Definition get (b : Board) (row col : Z) : option Square :=
  if (0 <=? col) && (col <? width b) && (0 <=? row) && (row <? height b)
  then Some (Coord col row)
  else None.

(** Attribute store of the square object a reference points to. *)
Definition square_state (b : Board) (sq : Square) : SquareState :=
  default new_square (table b !! Z.to_nat (y sq) ≫= (.!! Z.to_nat (x sq))).

Definition has_horizontal_fence (b : Board) (sq : Square) : bool :=
  horizontal_flag (square_state b sq).

Definition has_vertical_fence (b : Board) (sq : Square) : bool :=
  vertical_flag (square_state b sq).

Definition west_square (b : Board) (sq : Square) : option Square :=
  get b (y sq) (x sq - 1).
Definition east_square (b : Board) (sq : Square) : option Square :=
  get b (y sq) (x sq + 1).
Definition north_square (b : Board) (sq : Square) : option Square :=
  get b (y sq - 1) (x sq).
Definition south_square (b : Board) (sq : Square) : option Square :=
  get b (y sq + 1) (x sq).

(** Truth value of the idiom [s and f(s)] for an optional square [s]:
    [None] is false, a square object is true. *)
Definition and_then (s : option Square) (f : Square → bool) : bool :=
  match s with
  | Some sq => f sq
  | None => false
  end.

Definition west_fence (b : Board) (sq : Square) : bool :=
  and_then (west_square b sq) (has_vertical_fence b)
  || and_then (west_square b sq)
       (fun w => and_then (north_square b w) (has_vertical_fence b)).

Definition east_fence (b : Board) (sq : Square) : bool :=
  has_vertical_fence b sq
  || and_then (north_square b sq) (has_vertical_fence b).

Definition north_fence (b : Board) (sq : Square) : bool :=
  and_then (north_square b sq) (has_horizontal_fence b)
  || and_then (north_square b sq)
       (fun n => and_then (west_square b n) (has_horizontal_fence b)).

Definition south_fence (b : Board) (sq : Square) : bool :=
  has_horizontal_fence b sq
  || and_then (west_square b sq) (has_horizontal_fence b).

Definition square_at (b : Board) (sq : Square) (point : CardinalPoint)
  : option Square :=
  match point with
  | WEST => west_square b sq
  | EAST => east_square b sq
  | SOUTH => south_square b sq
  | NORTH => north_square b sq
  end.

Definition has_fence_at (b : Board) (sq : Square) (point : CardinalPoint)
  : bool :=
  match point with
  | WEST => west_fence b sq
  | EAST => east_fence b sq
  | SOUTH => south_fence b sq
  | NORTH => north_fence b sq
  end.

(** Truth value of [square and not fenced]. *)
Definition is_connected_with_square_at (b : Board) (sq : Square)
    (cardinal_point : CardinalPoint) : bool :=
  let square := square_at b sq cardinal_point in
  let fenced := has_fence_at b sq cardinal_point in
  and_then square (fun _ => negb fenced).

(** The squares the generator yields, in the order it yields them. *)
Definition cardinal_neighbors (b : Board) (sq : Square) : list Square :=
  flat_map
    (fun cardinal_point =>
       if is_connected_with_square_at b sq cardinal_point
       then option_list (square_at b sq cardinal_point)
       else [])
    CardinalPoints.

(** Assignment to one attribute of the object behind a reference. *)
Definition update_square (f : SquareState → SquareState) (b : Board)
    (sq : Square) : Board :=
  mkBoard (width b) (height b)
    (alter (alter f (Z.to_nat (x sq))) (Z.to_nat (y sq)) (table b)).

Definition place_horizontal_fence (b : Board) (sq : Square) : Board :=
  update_square (fun s => SquareAttrs true (vertical_flag s)) b sq.

Definition place_vertical_fence (b : Board) (sq : Square) : Board :=
  update_square (fun s => SquareAttrs (horizontal_flag s) true) b sq.

(** ** Players and the game *)

Record Player : Type := mkPlayer {
  remaining_fences : Z;
  pawn : Square;
  goals : list Square
}.

(** [turn] is [None] until [Game.start]. *)
Record Game : Type := mkGame {
  board : Board;
  players : list Player;
  turn : option Z;
  is_ingame : bool
}.

(** [Square.has_pawn]: some player's pawn is this very object. *)
Definition has_pawn (g : Game) (sq : Square) : bool :=
  existsb (fun player => bool_decide (sq = pawn player)) (players g).

(** Index of the current player, [turn % len(players)]. *)
Definition current_index (g : Game) : Outcome nat :=
  match turn g with
  | None => Raise TypeError
  | Some t =>
      let n := Z.of_nat (length (players g)) in
      if n =? 0 then Raise ZeroDivisionError
      else Ret (Z.to_nat (t `mod` n))
  end.

Definition current_player (g : Game) : Outcome Player :=
  do index <- current_index g;
  match players g !! index with
  | Some player => Ret player
  | None => Raise IndexError
  end.

(** [Board.get_row(y)] for a row index on the board: the squares of the row,
    west to east. *)
Definition get_row (b : Board) (row : Z) : list Square :=
  (fun col => Coord col row) <$> seqZ 0 (width b).

(** ** Reachability search

    [_can_player_reach_goal] is defined twice in the program, with the same
    body, in the two fence classes; one model serves both.

    The loop [while queue:] tests the truth value of a [queue.Queue] object.
    The class defines neither [__bool__] nor [__len__], so the test is true
    whatever the queue holds, and the [return False] after the loop is never
    reached.  [fuel] bounds the number of rounds of the [while] loop. *)

Inductive Round : Type :=
  | Found
  | Blocked
  | Next (visited : gset Square) (queue : list Square).

(** The [for w in range(width)] loop.  [w] counts the iterations left;
    [queue.get()] on an empty queue would wait forever ([Blocked]). *)
Fixpoint bfs_round (b : Board) (goal_list : list Square) (w : nat)
    (visited : gset Square) (queue : list Square) : Round :=
  match w with
  | O => Next visited queue
  | S w' =>
      match queue with
      | [] => Blocked
      | square :: rest =>
          if bool_decide (square ∈ goal_list) then Found
          else if bool_decide (square ∈ visited)
          then bfs_round b goal_list w' visited rest
          else bfs_round b goal_list w' ({[square]} ∪ visited)
                 (rest ++ cardinal_neighbors b square)
      end
  end.

Fixpoint bfs_loop (fuel : nat) (b : Board) (goal_list : list Square)
    (visited : gset Square) (queue : list Square) : Outcome bool :=
  match fuel with
  | O => OutOfFuel
  | S fuel' =>
      match bfs_round b goal_list (length queue) visited queue with
      | Found => Ret true
      | Blocked => OutOfFuel
      | Next visited' queue' => bfs_loop fuel' b goal_list visited' queue'
      end
  end.

Definition _can_player_reach_goal (fuel : nat) (b : Board) (player : Player)
  : Outcome bool :=
  bfs_loop fuel b (goals player) ∅ [pawn player].

(** ** Moves *)

Inductive Move : Type :=
  | Move_MovePawn (square : Square)
  | Move_PlaceFenceHorizontally (square : Square)
  | Move_PlaceFenceVertically (square : Square).

(** What one cardinal point adds to [possible_moves] in
    [Move_MovePawn.check_valid]. *)
Definition moves_toward (g : Game) (square_0 : Square)
    (cardinal_point : CardinalPoint) : gset Square :=
  let b := board g in
  if negb (is_connected_with_square_at b square_0 cardinal_point) then ∅
  else
    match square_at b square_0 cardinal_point with
    | None => ∅
    | Some square_1 =>
        if has_pawn g square_1 then
          if is_connected_with_square_at b square_1 cardinal_point
          then list_to_set (option_list (square_at b square_1 cardinal_point))
          else
            list_to_set
              (flat_map
                 (fun orthogonal_point =>
                    if is_connected_with_square_at b square_1 orthogonal_point
                    then option_list (square_at b square_1 orthogonal_point)
                    else [])
                 (orthogonal_points cardinal_point))
        else {[square_1]}
    end.

Definition possible_moves (g : Game) (square_0 : Square) : gset Square :=
  foldl (fun acc cardinal_point => acc ∪ moves_toward g square_0 cardinal_point)
    ∅ CardinalPoints.

Definition Move_MovePawn_check_valid (g : Game) (square : Square)
  : Outcome bool :=
  do player <- current_player g;
  Ret (bool_decide (square ∈ possible_moves g (pawn player))).

(** The loop over the players at the end of both fence validators. *)
Fixpoint every_player_reaches (fuel : nat) (b : Board) (ps : list Player)
  : Outcome bool :=
  match ps with
  | [] => Ret true
  | player :: rest =>
      do reached <- _can_player_reach_goal fuel b player;
      if negb reached then Ret false
      else every_player_reaches fuel b rest
  end.

Definition Move_PlaceFenceHorizontally_check_valid (fuel : nat) (g : Game)
    (square : Square) : Outcome bool :=
  let b := board g in
  if has_horizontal_fence b square then Ret false
  else if and_then (east_square b square) (has_horizontal_fence b)
  then Ret false
  else every_player_reaches fuel b (players g).

Definition Move_PlaceFenceVertically_check_valid (fuel : nat) (g : Game)
    (square : Square) : Outcome bool :=
  let b := board g in
  if has_vertical_fence b square then Ret false
  else if and_then (south_square b square) (has_vertical_fence b)
  then Ret false
  else every_player_reaches fuel b (players g).

Definition check_valid (fuel : nat) (g : Game) (m : Move) : Outcome bool :=
  match m with
  | Move_MovePawn square => Move_MovePawn_check_valid g square
  | Move_PlaceFenceHorizontally square =>
      Move_PlaceFenceHorizontally_check_valid fuel g square
  | Move_PlaceFenceVertically square =>
      Move_PlaceFenceVertically_check_valid fuel g square
  end.

Definition set_board (g : Game) (b : Board) : Game :=
  mkGame b (players g) (turn g) (is_ingame g).

Definition set_pawn (player : Player) (sq : Square) : Player :=
  mkPlayer (remaining_fences player) sq (goals player).

(** [Move.apply], by kind of move. *)
Definition apply (g : Game) (m : Move) : Outcome Game :=
  match m with
  | Move_MovePawn square =>
      do index <- current_index g;
      if decide (index < length (players g))%nat
      then Ret (mkGame (board g)
                  (alter (fun player => set_pawn player square) index (players g))
                  (turn g) (is_ingame g))
      else Raise IndexError
  | Move_PlaceFenceHorizontally square =>
      Ret (set_board g (place_horizontal_fence (board g) square))
  | Move_PlaceFenceVertically square =>
      Ret (set_board g (place_vertical_fence (board g) square))
  end.

(** ** Move notation

    A move string is a [string] of 8-bit characters; among these, [int]
    accepts the ten ASCII digits only. *)

Definition ord (c : ascii) : Z := Z.of_nat (nat_of_ascii c).

(** [int(c)] for a one-character string: a decimal digit or [ValueError]. *)
Definition int_of_char (c : ascii) : Outcome Z :=
  if (ord "0" <=? ord c) && (ord c <=? ord "9")
  then Ret (ord c - ord "0")
  else Raise ValueError.

(** Position read by [l[i]] in a list of [n] items: a negative index counts
    from the end, an index outside [-n, n) raises. *)
Definition list_index (n : nat) (i : Z) : Outcome nat :=
  if (0 <=? i) && (i <? Z.of_nat n) then Ret (Z.to_nat i)
  else if (- Z.of_nat n <=? i) && (i <? 0) then Ret (Z.to_nat (Z.of_nat n + i))
  else Raise IndexError.

(** [Board.__getitem__(coordinate)].  The object found at position [c] of
    row [r] of the table is the square with coordinates [(c, r)]. *)
Definition Board_getitem (b : Board) (coordinate : string) : Outcome Square :=
  match coordinate with
  | String c0 (String c1 _) =>
      let col := ord c0 - ord "a" in
      do v <- int_of_char c1;
      let row := v - 1 in
      do r <- list_index (length (table b)) row;
      do c <- list_index (length (default [] (table b !! r))) col;
      Ret (Coord (Z.of_nat c) (Z.of_nat r))
  | _ => Raise IndexError
  end.

(** [Move.parse(game, s)]. *)
Definition Move_parse (g : Game) (s : string) : Outcome Move :=
  do coordinate <- Board_getitem (board g) (substring 0 2 s);
  if (String.length s <? 3)%nat then Ret (Move_MovePawn coordinate)
  else
    match String.get 2 s with
    | Some "h"%char => Ret (Move_PlaceFenceHorizontally coordinate)
    | Some "v"%char => Ret (Move_PlaceFenceVertically coordinate)
    | _ => Raise ValueError
    end.

(** ** The validators as programs on the game

    The bodies of the three [check_valid] methods and of
    [_can_player_reach_goal], statement by statement, as computations that
    receive the game and hand it on: every read of an attribute or of a
    property of the game, the board, a square or a player is a step that
    looks at the game at that point; the sets and the queue are local. *)

Definition St (A : Type) : Type := Game → Outcome (A * Game).

Definition st_ret {A : Type} (a : A) : St A := fun g => Ret (a, g).

Definition st_bind {A B : Type} (c : St A) (k : A → St B) : St B :=
  fun g =>
    match c g with
    | Ret (a, g') => k a g'
    | Raise e => Raise e
    | OutOfFuel => OutOfFuel
    end.

Notation "'run' x <- c ; k" := (st_bind c (fun x => k))
  (at level 10, x name, c at level 100, k at level 200).

(** Reading an attribute or a property. *)
Definition st_read {A : Type} (f : Game → A) : St A := fun g => Ret (f g, g).

(** Reading a property that can raise. *)
Definition st_try {A : Type} (f : Game → Outcome A) : St A :=
  fun g => do a <- f g; Ret (a, g).

(** Assigning to an attribute. *)
Definition st_write (u : Game → Game) : St unit := fun g => Ret (tt, u g).

Definition st_hang {A : Type} : St A := fun _ => OutOfFuel.

(** A [for] loop over a list with a local variable. *)
Fixpoint st_for {A B : Type} (body : B → A → St B) (l : list A) (acc : B)
  : St B :=
  match l with
  | [] => st_ret acc
  | a :: rest => run acc' <- body acc a; st_for body rest acc'
  end.

(** The body of the loop over the cardinal points in
    [Move_MovePawn.check_valid]; [possible_moves] is the local set. *)
Definition st_pawn_direction (square_0 : Square)
    (possible_moves : gset Square) (cardinal_point : CardinalPoint)
  : St (gset Square) :=
  run connected <-
    st_read (fun g =>
               is_connected_with_square_at (board g) square_0 cardinal_point);
  if negb connected then st_ret possible_moves
  else
    run found <- st_read (fun g => square_at (board g) square_0 cardinal_point);
    match found with
    | None => st_ret possible_moves
    | Some square_1 =>
        run occupied <- st_read (fun g => has_pawn g square_1);
        if occupied then
          run onward <-
            st_read (fun g =>
                       is_connected_with_square_at (board g) square_1
                         cardinal_point);
          if onward then
            run square_2 <-
              st_read (fun g => square_at (board g) square_1 cardinal_point);
            st_ret (possible_moves ∪ list_to_set (option_list square_2))
          else
            st_for
              (fun possible_moves orthogonal_point =>
                 run beside <-
                   st_read (fun g =>
                              is_connected_with_square_at (board g) square_1
                                orthogonal_point);
                 if beside then
                   run square_2 <-
                     st_read (fun g =>
                                square_at (board g) square_1 orthogonal_point);
                   st_ret (possible_moves ∪ list_to_set (option_list square_2))
                 else st_ret possible_moves)
              (orthogonal_points cardinal_point) possible_moves
        else st_ret (possible_moves ∪ {[square_1]})
    end.

Definition st_Move_MovePawn_check_valid (square : Square) : St bool :=
  run player <- st_try current_player;
  run possible_moves <-
    st_for (st_pawn_direction (pawn player)) CardinalPoints ∅;
  st_ret (bool_decide (square ∈ possible_moves)).

(** The [for w in range(width)] loop of [_can_player_reach_goal]. *)
Fixpoint st_bfs_round (goal_list : list Square) (w : nat)
    (visited : gset Square) (queue : list Square) : St Round :=
  match w with
  | O => st_ret (Next visited queue)
  | S w' =>
      match queue with
      | [] => st_ret Blocked
      | square :: rest =>
          if bool_decide (square ∈ goal_list) then st_ret Found
          else if bool_decide (square ∈ visited)
          then st_bfs_round goal_list w' visited rest
          else
            run neighbors <-
              st_read (fun g => cardinal_neighbors (board g) square);
            st_bfs_round goal_list w' ({[square]} ∪ visited)
              (rest ++ neighbors)
      end
  end.

Fixpoint st_bfs_loop (fuel : nat) (goal_list : list Square)
    (visited : gset Square) (queue : list Square) : St bool :=
  match fuel with
  | O => st_hang
  | S fuel' =>
      run round <- st_bfs_round goal_list (length queue) visited queue;
      match round with
      | Found => st_ret true
      | Blocked => st_hang
      | Next visited' queue' => st_bfs_loop fuel' goal_list visited' queue'
      end
  end.

Definition st_can_player_reach_goal (fuel : nat) (player : Player) : St bool :=
  st_bfs_loop fuel (goals player) ∅ [pawn player].

(** The loop over [self.game.players] that ends both fence validators. *)
Fixpoint st_every_player_reaches (fuel : nat) (ps : list Player) : St bool :=
  match ps with
  | [] => st_ret true
  | player :: rest =>
      run reached <- st_can_player_reach_goal fuel player;
      if negb reached then st_ret false
      else st_every_player_reaches fuel rest
  end.

(** [s and s.has_..._fence] for an optional square [s]. *)
Definition st_and_then (s : option Square) (f : Board → Square → bool)
  : St bool :=
  match s with
  | Some sq => st_read (fun g => f (board g) sq)
  | None => st_ret false
  end.

Definition st_Move_PlaceFenceHorizontally_check_valid (fuel : nat)
    (square : Square) : St bool :=
  run flagged <- st_read (fun g => has_horizontal_fence (board g) square);
  if flagged then st_ret false
  else
    run east <- st_read (fun g => east_square (board g) square);
    run east_flagged <- st_and_then east has_horizontal_fence;
    if east_flagged then st_ret false
    else
      run ps <- st_read players;
      st_every_player_reaches fuel ps.

Definition st_Move_PlaceFenceVertically_check_valid (fuel : nat)
    (square : Square) : St bool :=
  run flagged <- st_read (fun g => has_vertical_fence (board g) square);
  if flagged then st_ret false
  else
    run south <- st_read (fun g => south_square (board g) square);
    run south_flagged <- st_and_then south has_vertical_fence;
    if south_flagged then st_ret false
    else
      run ps <- st_read players;
      st_every_player_reaches fuel ps.

Definition st_check_valid (fuel : nat) (m : Move) : St bool :=
  match m with
  | Move_MovePawn square => st_Move_MovePawn_check_valid square
  | Move_PlaceFenceHorizontally square =>
      st_Move_PlaceFenceHorizontally_check_valid fuel square
  | Move_PlaceFenceVertically square =>
      st_Move_PlaceFenceVertically_check_valid fuel square
  end.

(** ** Turn management

    Console output is not part of the modelled state; what a message
    evaluates is. *)

(** The state [Game().start()] leaves: [_setup] followed by [turn = 1]. *)
Definition Game_start : Game :=
  let b := Board_init 9 9 in
  let n_players := 2 in
  let n_fences := 20 in
  mkGame b
    [ mkPlayer (n_fences `div` n_players) (Coord 4 0) (get_row b 8);
      mkPlayer (n_fences `div` n_players) (Coord 4 8) (get_row b 0) ]
    (Some 1) true.

(** [Game._start_turn]: its message evaluates [current_player]. *)
Definition Game_start_turn (g : Game) : Outcome Game :=
  do player <- current_player g;
  Ret g.

(** [Game._end]: [winner = self.current_player], then [is_ingame = False]. *)
Definition Game_end (g : Game) : Outcome Game :=
  do winner <- current_player g;
  Ret (mkGame (board g) (players g) (turn g) false).

(** [Game._end_turn] *)
Definition Game_end_turn (g : Game) : Outcome Game :=
  do player <- current_player g;
  if bool_decide (pawn player ∈ goals player)
  then Game_end g
  else Game_start_turn
         (mkGame (board g) (players g) ((fun t => t + 1) <$> turn g)
            (is_ingame g)).

(** [Game.move(s)].  The game that [check_valid] hands back is the one the
    move is applied to, or the one [_start_turn] is called on when the move
    is refused.  ([print(m)] reads the pawn of the current player and the
    coordinates of squares of the board; after an accepted move it cannot
    raise.) *)
Definition Game_move (fuel : nat) (s : string) (g : Game) : Outcome Game :=
  match turn g with
  | None => Raise NotStarted
  | Some _ =>
      do m <- Move_parse g s;
      do r <- st_check_valid fuel m g;
      if r.1
      then do g' <- apply r.2 m; Game_end_turn g'
      else Game_start_turn r.2
  end.

(** A sequence of [Game.move] calls. *)
Fixpoint Game_moves (fuel : nat) (moves : list string) (g : Game)
  : Outcome Game :=
  match moves with
  | [] => Ret g
  | s :: rest => do g' <- Game_move fuel s g; Game_moves fuel rest g'
  end.

(** ** Edges closed by a fence *)

(** The unit edges closed by a vertical fence anchored at [sq]: the edge
    between column [x] and column [x + 1], in row [y] and in row [y + 1].
    [sq'] is the square on either side of such an edge and [point] the
    direction in which it looks at the edge. *)
Definition vertical_fence_span (sq sq' : Square) (point : CardinalPoint)
  : bool :=
  bool_decide ((point = EAST ∧ x sq' = x sq ∨ point = WEST ∧ x sq' = x sq + 1)
               ∧ (y sq' = y sq ∨ y sq' = y sq + 1)).

(** The unit edges closed by a horizontal fence anchored at [sq]: the edge
    between row [y] and row [y + 1], in column [x] and in column [x + 1]. *)
Definition horizontal_fence_span (sq sq' : Square) (point : CardinalPoint)
  : bool :=
  bool_decide ((point = SOUTH ∧ y sq' = y sq ∨ point = NORTH ∧ y sq' = y sq + 1)
               ∧ (x sq' = x sq ∨ x sq' = x sq + 1)).

(** The edges as the specification words them: between column [x - 1] and
    column [x] in rows [y] and [y - 1] for a vertical flag, between row
    [y - 1] and row [y] in columns [x] and [x - 1] for a horizontal flag. *)
Definition spec_vertical_fence_span (sq sq' : Square) (point : CardinalPoint)
  : bool :=
  bool_decide ((point = WEST ∧ x sq' = x sq ∨ point = EAST ∧ x sq' = x sq - 1)
               ∧ (y sq' = y sq ∨ y sq' = y sq - 1)).

Definition spec_horizontal_fence_span (sq sq' : Square) (point : CardinalPoint)
  : bool :=
  bool_decide ((point = NORTH ∧ y sq' = y sq ∨ point = SOUTH ∧ y sq' = y sq - 1)
               ∧ (x sq' = x sq ∨ x sq' = x sq - 1)).

(** ** Paths through open edges *)

(** The coordinate one step away in a direction. *)
Definition shift (sq : Square) (point : CardinalPoint) : Square :=
  match point with
  | WEST => Coord (x sq - 1) (y sq)
  | EAST => Coord (x sq + 1) (y sq)
  | NORTH => Coord (x sq) (y sq - 1)
  | SOUTH => Coord (x sq) (y sq + 1)
  end.


(** One step of the open-edge graph of the board. *)
Definition edge (b : Board) (sq sq' : Square) : Prop :=
  sq' ∈ cardinal_neighbors b sq.

(** Some square of the goal list can be walked to from [start]. *)
Definition reachable (b : Board) (start : Square) (goal_list : list Square)
  : Prop :=
  ∃ goal, goal ∈ goal_list ∧ rtc (edge b) start goal.

(** The search comes back with [True]. *)
Definition search_succeeds (b : Board) (start : Square)
    (goal_list : list Square) : Prop :=
  ∃ fuel, bfs_loop fuel b goal_list ∅ [start] = Ret true.

(** *** Bookkeeping for the search *)

(** Every square object of the board. *)
Definition all_squares (b : Board) : gset Square :=
  list_to_set
    (row ← seqZ 0 (height b); (fun col => Coord col row) <$> seqZ 0 (width b)).

(** A number that every iteration of the inner loop makes smaller: a square
    that is visited for the first time puts at most four squares in the
    queue. *)
Definition bfs_measure (b : Board) (visited : gset Square)
    (queue : list Square) : nat :=
  (5 * size (all_squares b ∖ visited) + length queue)%nat.

(** What holds of [visited] and [queue] between two iterations. *)
Record bfs_inv (b : Board) (goal_list : list Square) (start : Square)
    (visited : gset Square) (queue : list Square) : Prop := BfsInv {
  inv_start : start ∈ visited ∨ start ∈ queue;
  inv_closed : ∀ sq sq', sq ∈ visited → edge b sq sq' →
               sq' ∈ visited ∨ sq' ∈ queue;
  inv_no_goal : ∀ sq, sq ∈ visited → sq ∉ goal_list;
  inv_queue_bounds : ∀ sq, sq ∈ queue → in_bounds b sq;
  inv_queue_reached : ∀ sq, sq ∈ queue → rtc (edge b) start sq
}.

Definition test_game_1 : list string :=
  ["e8"; "e2"; "e7"; "e3"; "e6"; "e4"; "e6h"; "e3h"; "f5v"; "e5h"; "c6h"; "f4";
   "f3v"; "g6h"; "a6h"; "e4"; "c5v"; "d4h"; "d2v"; "d4"; "d6"; "d3"; "d5";
   "c3h"; "h4"; "d2"; "c1h"; "a2h"; "h7h"]%string.

(** ** A game in which the first row gets fenced off

    Four horizontal fences under a1-b1, c1-d1, e1-f1 and g1-h1, placed in
    turn from the opening position; the fifth, at i1, closes the row. *)

Definition fence_row : list string := ["a1h"; "c1h"; "e1h"; "g1h"]%string.

Definition row_nearly_closed : Game :=
  mkGame
    (foldl place_horizontal_fence (Board_init 9 9)
       [Coord 0 0; Coord 2 0; Coord 4 0; Coord 6 0])
    (players Game_start) (Some 5) true.

Definition row_closed : Game :=
  set_board row_nearly_closed
    (place_horizontal_fence (board row_nearly_closed) (Coord 8 0)).

(** ** Games with the two pawns face to face

    After e8 e2 e7 e3 e6 e4 e5 the pawns stand on e4 and e5. *)

Definition face_to_face_moves : list string :=
  ["e8"; "e2"; "e7"; "e3"; "e6"; "e4"; "e5"]%string.

Definition face_to_face (fences : list Square) (t : Z) : Game :=
  mkGame (foldl place_horizontal_fence (Board_init 9 9) fences)
    [ mkPlayer 10 (Coord 4 3) (get_row (Board_init 9 9) 8);
      mkPlayer 10 (Coord 4 4) (get_row (Board_init 9 9) 0) ]
    (Some t) true.

(** The pawn on e4 is to move; nothing is fenced. *)
Definition jump_open : Game := face_to_face [] 8.

(** The pawn on e4 is to move; a fence lies behind the pawn on e5. *)
Definition jump_walled : Game := face_to_face [Coord 4 4; Coord 0 0] 10.

(** The pawn on e5 is to move; one fence lies between the two pawns and one
    behind the pawn on e4. *)
Definition pawns_fenced_apart : Game :=
  face_to_face [Coord 4 2; Coord 0 0; Coord 4 3] 11.

(** ** Acceptance of a move *)

(** [check_valid] comes back with [True]. *)
Definition accepted (g : Game) (m : Move) : Prop :=
  ∃ fuel, check_valid fuel g m = Ret true.

Definition pawns_on_board (g : Game) : Prop :=
  ∀ player, player ∈ players g → in_bounds (board g) (pawn player).

Definition every_player_has_path (g : Game) : Prop :=
  ∀ player, player ∈ players g →
    reachable (board g) (pawn player) (goals player).

(** Rounds of the [while] loop that suffice on a board, whatever the start. *)
Definition enough_fuel (b : Board) : nat :=
  (5 * size (all_squares b) + 2)%nat.

(** ** Games with fences around e5 *)

(** After d5h and e4v: a horizontal fence on the west neighbour of e5 and a
    vertical fence on its north neighbour. *)
Definition fences_beside_e5 : Game :=
  mkGame
    (place_vertical_fence
       (place_horizontal_fence (Board_init 9 9) (Coord 3 4)) (Coord 4 3))
    (players Game_start) (Some 3) true.

(** After e5h: a horizontal fence anchored at e5. *)
Definition horizontal_at_e5 : Game :=
  mkGame (place_horizontal_fence (Board_init 9 9) (Coord 4 4))
    (players Game_start) (Some 2) true.

(** After e5v: a vertical fence anchored at e5. *)
Definition vertical_at_e5 : Game :=
  mkGame (place_vertical_fence (Board_init 9 9) (Coord 4 4))
    (players Game_start) (Some 2) true.

(** The direction that looks back along an edge. *)
Definition opposite (point : CardinalPoint) : CardinalPoint :=
  match point with
  | WEST => EAST
  | EAST => WEST
  | NORTH => SOUTH
  | SOUTH => NORTH
  end.

(** The [square] attribute of a move. *)
Definition Move_square (m : Move) : Square :=
  match m with
  | Move_MovePawn square
  | Move_PlaceFenceHorizontally square
  | Move_PlaceFenceVertically square => square
  end.

(** ** Printing a coordinate *)

(** [chr(i)] for a code point the 8-bit characters can hold.  (Python has
    characters up to 0x10FFFF; column names beyond the 8-bit range are
    outside this model of strings.) *)
Definition chr (i : Z) : Outcome ascii :=
  if (0 <=? i) && (i <? 256) then Ret (ascii_of_nat (Z.to_nat i))
  else Raise ValueError.

(** [Coordinate.column_name] *)
Definition column_name (sq : Square) : Outcome string :=
  do c <- chr (ord "a" + x sq);
  Ret (String c "").

(** [Coordinate.row_name]: [str(1 + y)], the decimal numeral. *)
Definition row_name (sq : Square) : string :=
  NilZero.string_of_int (Z.to_int (1 + y sq)).

(** [Coordinate.__str__] *)
Definition Coordinate_str (sq : Square) : Outcome string :=
  do c <- column_name sq;
  Ret (c ++ row_name sq)%string.

(** * Properties *)

(** ** The grid *)

Section grid.
Context (b : Board).

Lemma get_Some row col sq :
  get b row col = Some sq ↔
  sq = Coord col row ∧ 0 ≤ col < width b ∧ 0 ≤ row < height b.
Proof.
  unfold get. case_match eqn:E.
  - apply andb_prop in E as [E ?]. apply andb_prop in E as [E ?].
    apply andb_prop in E as [? ?]. split; [intros [= <-]|intros (-> & _)].
    + repeat split; lia.
    + done.
  - split; [done|]. intros (_ & ? & ?).
    assert ((0 <=? col) && (col <? width b) && (0 <=? row)
            && (row <? height b) = true) as E'; [|congruence].
    repeat (apply andb_true_intro; split); lia.
Qed.

Lemma get_None row col :
  get b row col = None ↔ ¬ (0 ≤ col < width b ∧ 0 ≤ row < height b).
Proof.
  split.
  - intros E (? & ?). assert (get b row col = Some (Coord col row)) as E'.
    { by apply get_Some. }
    congruence.
  - intros Hn. destruct (get b row col) as [sq|] eqn:E; [|done].
    apply get_Some in E as (_ & ?). tauto.
Qed.

Lemma square_at_Some sq point sq' :
  square_at b sq point = Some sq' ↔ sq' = shift sq point ∧ in_bounds b sq'.
Proof.
  unfold in_bounds.
  destruct point; simpl;
    unfold west_square, east_square, north_square, south_square;
    rewrite get_Some; (split; [intros (-> & ?); simpl; tauto|]);
    intros (-> & ?); simpl in *; tauto.
Qed.

Lemma square_at_None sq point :
  square_at b sq point = None ↔ ¬ in_bounds b (shift sq point).
Proof.
  unfold in_bounds.
  destruct point; simpl;
    unfold west_square, east_square, north_square, south_square;
    rewrite get_None; simpl; tauto.
Qed.

Lemma is_connected_Some sq point :
  is_connected_with_square_at b sq point = true →
  ∃ sq', square_at b sq point = Some sq'.
Proof.
  unfold is_connected_with_square_at.
  destruct (square_at b sq point); simpl; eauto; done.
Qed.

Lemma is_connected_spec sq point :
  is_connected_with_square_at b sq point = true ↔
  in_bounds b (shift sq point) ∧ has_fence_at b sq point = false.
Proof.
  unfold is_connected_with_square_at.
  destruct (square_at b sq point) as [sq'|] eqn:E; simpl.
  - apply square_at_Some in E as (-> & ?). rewrite negb_true_iff. tauto.
  - apply square_at_None in E. split; [done|tauto].
Qed.

Lemma elem_of_cardinal_neighbors sq sq' :
  sq' ∈ cardinal_neighbors b sq ↔
  ∃ point, is_connected_with_square_at b sq point = true
           ∧ square_at b sq point = Some sq'.
Proof.
  unfold cardinal_neighbors, CardinalPoints. cbn [flat_map].
  rewrite !elem_of_app. split.
  - intros H.
    destruct H as [H|[H|[H|[H|H]]]];
      match type of H with
      | _ ∈ (if ?c then _ else _) =>
          destruct c eqn:E; [|by apply elem_of_nil in H]
      | _ => by apply elem_of_nil in H
      end;
      match type of E with
      | is_connected_with_square_at _ _ ?p = _ =>
          exists p; split; [done|];
          destruct (square_at b sq p); simpl in H;
          [apply list_elem_of_singleton in H; by subst
          |by apply elem_of_nil in H]
      end.
  - intros (point & E & Hs).
    destruct point; rewrite E, Hs; simpl;
      rewrite list_elem_of_singleton; tauto.
Qed.

Lemma cardinal_neighbors_length sq :
  (length (cardinal_neighbors b sq) ≤ 4)%nat.
Proof.
  unfold cardinal_neighbors, CardinalPoints. cbn [flat_map].
  rewrite !length_app.
  repeat match goal with
  | |- context [if ?c then _ else _] => destruct c
  end;
  repeat match goal with
  | |- context [option_list (square_at b sq ?p)] =>
      destruct (square_at b sq p)
  end; simpl; lia.
Qed.

Lemma edge_in_bounds sq sq' : edge b sq sq' → in_bounds b sq'.
Proof.
  intros (point & _ & E)%elem_of_cardinal_neighbors.
  by apply square_at_Some in E as (_ & ?).
Qed.

End grid.

(** ** The search *)

Lemma elem_of_all_squares b sq : in_bounds b sq → sq ∈ all_squares b.
Proof.
  intros [? ?]. unfold all_squares. apply elem_of_list_to_set.
  apply list_elem_of_bind. exists (y sq). split.
  - apply list_elem_of_fmap. exists (x sq). split; [by destruct sq|].
    apply elem_of_seqZ. lia.
  - apply elem_of_seqZ. lia.
Qed.

Section search.
Context (b : Board) (goal_list : list Square) (start : Square).

Local Abbreviation inv := (bfs_inv b goal_list start).
Local Abbreviation measure := (bfs_measure b).

Lemma bfs_inv_init : in_bounds b start → inv ∅ [start].
Proof.
  intros Hb. split.
  - right. by apply list_elem_of_singleton.
  - intros sq sq' H. set_solver.
  - intros sq H. set_solver.
  - by intros sq ->%list_elem_of_singleton.
  - by intros sq ->%list_elem_of_singleton.
Qed.

(** The head of the queue was visited before: it is dropped. *)
Lemma bfs_inv_skip visited square rest :
  inv visited (square :: rest) → square ∈ visited → inv visited rest.
Proof.
  intros [Hs Hc Hg Hb Hr] Hv. split.
  - destruct Hs as [?|[->|?]%elem_of_cons]; auto.
  - intros sq sq' Hsq He.
    destruct (Hc sq sq' Hsq He) as [?|[->|?]%elem_of_cons]; auto.
  - done.
  - intros sq Hsq. apply Hb. by right.
  - intros sq Hsq. apply Hr. by right.
Qed.

(** The head of the queue is new and no goal: it is marked and its open
    neighbours are queued. *)
Lemma bfs_inv_visit visited square rest :
  inv visited (square :: rest) → square ∉ goal_list →
  inv ({[square]} ∪ visited) (rest ++ cardinal_neighbors b square).
Proof.
  intros [Hs Hc Hg Hb Hr] Hng. split.
  - destruct Hs as [?|[->|?]%elem_of_cons].
    + left. apply elem_of_union. by right.
    + left. apply elem_of_union. left. by apply elem_of_singleton.
    + right. apply elem_of_app. by left.
  - intros sq sq' [->%elem_of_singleton|Hsq]%elem_of_union He.
    + right. apply elem_of_app. by right.
    + destruct (Hc sq sq' Hsq He) as [?|[->|?]%elem_of_cons].
      * left. apply elem_of_union. by right.
      * left. apply elem_of_union. left. by apply elem_of_singleton.
      * right. apply elem_of_app. by left.
  - intros sq [->%elem_of_singleton|Hsq]%elem_of_union; auto.
  - intros sq [Hsq|Hsq]%elem_of_app.
    + apply Hb. by right.
    + by apply (edge_in_bounds b square).
  - intros sq [Hsq|Hsq]%elem_of_app.
    + apply Hr. by right.
    + eapply rtc_r; [apply Hr; by left|done].
Qed.

Lemma bfs_measure_skip visited square rest :
  (measure visited rest + 1 = measure visited (square :: rest))%nat.
Proof. unfold bfs_measure. simpl. lia. Qed.

Lemma bfs_measure_visit visited square rest :
  in_bounds b square → square ∉ visited →
  (measure ({[square]} ∪ visited) (rest ++ cardinal_neighbors b square) + 1
   ≤ measure visited (square :: rest))%nat.
Proof.
  intros Hb Hv. unfold bfs_measure.
  assert (size (all_squares b ∖ ({[square]} ∪ visited))
          < size (all_squares b ∖ visited))%nat.
  { apply subset_size. apply elem_of_all_squares in Hb. split.
    - intros sq (? & Hn)%elem_of_difference. apply elem_of_difference.
      split; [done|]. intros Hin. apply Hn, elem_of_union. by right.
    - intros Hsub.
      assert (square ∈ all_squares b ∖ visited) as Hin
        by (by apply elem_of_difference).
      apply Hsub, elem_of_difference in Hin as [_ Hn].
      apply Hn, elem_of_union. left. by apply elem_of_singleton. }
  pose proof (cardinal_neighbors_length b square).
  rewrite length_app. simpl. lia.
Qed.

(** A round of [w] iterations on a queue that holds at least [w] squares
    either finds a goal or hands over a state that still satisfies the
    invariant, with the measure down by at least [w]. *)
Lemma bfs_round_progress w : ∀ visited queue,
  (w ≤ length queue)%nat → inv visited queue →
  bfs_round b goal_list w visited queue = Found ∨
  ∃ visited' queue',
    bfs_round b goal_list w visited queue = Next visited' queue'
    ∧ inv visited' queue'
    ∧ (measure visited' queue' + w ≤ measure visited queue)%nat.
Proof.
  induction w as [|w IH]; intros visited queue Hw Hinv; simpl.
  - right. exists visited, queue. split_and!; [done|done|lia].
  - destruct queue as [|square rest]; [simpl in Hw; lia|].
    simpl in Hw. case_bool_decide as Hgoal; [by left|].
    case_bool_decide as Hvis.
    + destruct (IH visited rest) as [?|(v' & q' & ? & ? & ?)];
        [lia|by eapply bfs_inv_skip|by left|].
      right. exists v', q'. split_and!; [done|done|].
      pose proof (bfs_measure_skip visited square rest). lia.
    + destruct (IH ({[square]} ∪ visited)
                  (rest ++ cardinal_neighbors b square))
        as [?|(v' & q' & ? & ? & ?)];
        [rewrite length_app; lia|by apply bfs_inv_visit|by left|].
      right. exists v', q'. split_and!; [done|done|].
      assert (in_bounds b square) as Hsq.
      { apply (inv_queue_bounds _ _ _ _ _ Hinv). by left. }
      pose proof (bfs_measure_visit visited square rest Hsq Hvis). lia.
Qed.

(** While a goal can be walked to, the queue holds a square. *)
Lemma bfs_inv_queue_nonempty visited queue :
  inv visited queue → reachable b start goal_list → queue ≠ [].
Proof.
  intros [Hs Hc Hg _ _] (goal & Hgoal & Hpath).
  assert (∀ sq, rtc (edge b) sq goal → sq ∈ visited ∨ sq ∈ queue →
                ∃ sq', sq' ∈ queue) as Hwalk.
  { clear Hs Hpath. intros sq Hpath.
    induction Hpath as [goal|sq sq1 goal He _ IH]; intros [Hv|Hq]; eauto.
    exfalso. by apply (Hg goal). }
  destruct (Hwalk start Hpath Hs) as [sq' Hsq']. by intros ->; set_solver.
Qed.

(** Completeness: with a goal in reach, enough fuel gives [True]. *)
Lemma bfs_loop_complete fuel : ∀ visited queue,
  inv visited queue → reachable b start goal_list →
  (measure visited queue < fuel)%nat →
  bfs_loop fuel b goal_list visited queue = Ret true.
Proof.
  induction fuel as [|fuel IH]; intros visited queue Hinv Hreach Hm; [lia|].
  simpl.
  pose proof (bfs_inv_queue_nonempty _ _ Hinv Hreach) as Hne.
  destruct (bfs_round_progress (length queue) visited queue)
    as [->|(v' & q' & -> & Hinv' & Hm')]; [lia|done|done|].
  apply IH; [done|done|]. destruct queue; [done|simpl in Hm'; lia].
Qed.

(** The search never comes back with [False]. *)
Lemma bfs_loop_never_false fuel : ∀ visited queue,
  bfs_loop fuel b goal_list visited queue ≠ Ret false.
Proof.
  induction fuel as [|fuel IH]; intros visited queue; simpl; [done|].
  destruct (bfs_round _ _ _ _ _); [done|done|apply IH].
Qed.

Lemma bfs_round_found w : ∀ visited queue,
  inv visited queue → bfs_round b goal_list w visited queue = Found →
  reachable b start goal_list.
Proof.
  induction w as [|w IH]; intros visited queue Hinv; simpl; [done|].
  destruct queue as [|square rest]; [done|].
  case_bool_decide as Hgoal.
  - intros _. exists square. split; [done|].
    apply (inv_queue_reached _ _ _ _ _ Hinv). by left.
  - case_bool_decide as Hvis.
    + apply IH. by eapply bfs_inv_skip.
    + apply IH. by apply bfs_inv_visit.
Qed.

Lemma bfs_round_next w : ∀ visited queue visited' queue',
  inv visited queue →
  bfs_round b goal_list w visited queue = Next visited' queue' →
  inv visited' queue'.
Proof.
  induction w as [|w IH]; intros visited queue v' q' Hinv; simpl.
  - by intros [= <- <-].
  - destruct queue as [|square rest]; [done|].
    case_bool_decide as Hgoal; [done|]. case_bool_decide as Hvis.
    + apply IH. by eapply bfs_inv_skip.
    + apply IH. by apply bfs_inv_visit.
Qed.

(** Soundness: [True] is only returned with a goal in reach. *)
Lemma bfs_loop_sound fuel : ∀ visited queue,
  inv visited queue → bfs_loop fuel b goal_list visited queue = Ret true →
  reachable b start goal_list.
Proof.
  induction fuel as [|fuel IH]; intros visited queue Hinv; simpl; [done|].
  destruct (bfs_round _ _ _ _ _) as [| |v' q'] eqn:E; [|done|].
  - intros _. by eapply bfs_round_found.
  - apply IH. by eapply bfs_round_next.
Qed.

(** More fuel does not change an answer. *)
Lemma bfs_loop_fuel_mono fuel : ∀ fuel' visited queue r,
  (fuel ≤ fuel')%nat → bfs_loop fuel b goal_list visited queue = Ret r →
  bfs_loop fuel' b goal_list visited queue = Ret r.
Proof.
  induction fuel as [|fuel IH]; intros fuel' visited queue r Hle; simpl;
    [done|].
  destruct fuel' as [|fuel']; [lia|]. simpl.
  destruct (bfs_round _ _ _ _ _); [done|done|]. apply IH. lia.
Qed.

End search.

(** The search answers [True], given enough rounds, exactly when a goal can
    be walked to through open edges. *)
Lemma search_succeeds_iff b start goal_list :
  in_bounds b start →
  search_succeeds b start goal_list ↔ reachable b start goal_list.
Proof.
  intros Hb. split.
  - intros [fuel H]. eapply bfs_loop_sound; [|done]. by apply bfs_inv_init.
  - intros Hr. exists (S (bfs_measure b ∅ [start])).
    apply (bfs_loop_complete b goal_list start); [by apply bfs_inv_init|done|lia].
Qed.

(** With no goal in reach the search runs on, whatever the fuel. *)
Lemma search_diverges b start goal_list fuel :
  in_bounds b start → ¬ reachable b start goal_list →
  bfs_loop fuel b goal_list ∅ [start] = OutOfFuel.
Proof.
  intros Hb Hn.
  destruct (bfs_loop fuel b goal_list ∅ [start]) as [[]|e|] eqn:E; [| | |done].
  - destruct Hn. eapply bfs_loop_sound; [|done]. by apply bfs_inv_init.
  - by apply bfs_loop_never_false in E.
  - exfalso. revert E. generalize (∅ : gset Square) [start].
    induction fuel as [|fuel IH]; intros v q; simpl; [done|].
    destruct (bfs_round _ _ _ _ _); [done|done|apply IH].
Qed.

(** ** Fence flags *)

Lemma lookup2_alter {A} (f : A → A) (t : list (list A)) (i j i' j' : nat) :
  alter (alter f j) i t !! i' ≫= (.!! j') =
  if decide (i = i' ∧ j = j') then f <$> (t !! i' ≫= (.!! j'))
  else t !! i' ≫= (.!! j').
Proof.
  destruct (decide (i = i')) as [<-|Hi].
  - rewrite list_lookup_alter_eq. destruct (t !! i) as [row|]; simpl.
    + destruct (decide (j = j')) as [<-|Hj].
      * rewrite list_lookup_alter_eq. by rewrite decide_True.
      * rewrite list_lookup_alter_ne by done. rewrite decide_False; tauto.
    + by case_decide.
  - rewrite list_lookup_alter_ne by done. rewrite decide_False; tauto.
Qed.

Lemma Board_wf_lookup b sq :
  Board_wf b → in_bounds b sq →
  ∃ s, table b !! Z.to_nat (y sq) ≫= (.!! Z.to_nat (x sq)) = Some s.
Proof.
  intros [Hh Hw] [? ?].
  destruct (lookup_lt_is_Some_2 (table b) (Z.to_nat (y sq))) as [row Hrow];
    [lia|].
  rewrite Hrow. simpl. apply (lookup_lt_is_Some_2 row).
  rewrite Forall_forall in Hw. rewrite (Hw row); [lia|].
  by eapply list_elem_of_lookup_2.
Qed.

Lemma Board_wf_init w h : Board_wf (Board_init w h).
Proof.
  split; simpl.
  - by rewrite length_replicate.
  - apply Forall_forall. intros row Hrow.
    apply elem_of_replicate in Hrow as [-> _]. by rewrite length_replicate.
Qed.

Lemma Board_wf_update f b sq : Board_wf b → Board_wf (update_square f b sq).
Proof.
  intros [Hh Hw]. split; simpl.
  - by rewrite length_alter.
  - rewrite Forall_forall in *. intros row Hrow.
    apply list_elem_of_lookup in Hrow as [i Hi].
    rewrite list_lookup_alter in Hi. case_decide.
    + destruct (table b !! Z.to_nat (y sq)) as [row0|] eqn:E; [|done].
      simpl in Hi. injection Hi as <-. rewrite length_alter. apply Hw.
      by eapply list_elem_of_lookup_2.
    + apply Hw. by eapply list_elem_of_lookup_2.
Qed.

(** Reading an attribute after an assignment through a reference: the same
    object gives the new value, any other object its old one. *)
Lemma square_state_update f b sq sq' :
  Board_wf b → in_bounds b sq → in_bounds b sq' →
  square_state (update_square f b sq) sq' =
  if decide (sq' = sq) then f (square_state b sq) else square_state b sq'.
Proof.
  intros Hwf Hsq Hsq'. unfold square_state, update_square. simpl.
  rewrite lookup2_alter. destruct Hsq as [? ?], Hsq' as [? ?].
  case_decide as Hd.
  - destruct Hd as [? ?]. assert (sq' = sq) as ->.
    { destruct sq, sq'; simpl in *. f_equal; lia. }
    rewrite decide_True by done.
    destruct (Board_wf_lookup b sq Hwf) as [s ->]; [done|]. done.
  - rewrite decide_False; [done|]. intros ->. tauto.
Qed.

(** Without any assumption on the coordinates: an assignment either leaves
    what is read alone or applies the update to it. *)
Lemma square_state_update_cases f b sq sq' :
  square_state (update_square f b sq) sq' = square_state b sq' ∨
  square_state (update_square f b sq) sq' = f (square_state b sq')
  ∧ is_Some (table b !! Z.to_nat (y sq') ≫= (.!! Z.to_nat (x sq'))).
Proof.
  unfold square_state, update_square. simpl. rewrite lookup2_alter.
  case_decide; [|by left].
  destruct (table b !! Z.to_nat (y sq') ≫= _) as [s|]; simpl; eauto.
Qed.

Section flags.
Context (b : Board) (sq sq' : Square).
Context (Hwf : Board_wf b) (Hsq : in_bounds b sq) (Hsq' : in_bounds b sq').

Lemma has_vertical_fence_place_vertical :
  has_vertical_fence (place_vertical_fence b sq) sq' =
  has_vertical_fence b sq' || bool_decide (sq' = sq).
Proof.
  unfold has_vertical_fence, place_vertical_fence.
  rewrite square_state_update by done.
  case_decide; [subst; rewrite bool_decide_eq_true_2 by done|
                rewrite bool_decide_eq_false_2 by done]; simpl.
  - by rewrite orb_true_r.
  - by rewrite orb_false_r.
Qed.

Lemma has_horizontal_fence_place_horizontal :
  has_horizontal_fence (place_horizontal_fence b sq) sq' =
  has_horizontal_fence b sq' || bool_decide (sq' = sq).
Proof.
  unfold has_horizontal_fence, place_horizontal_fence.
  rewrite square_state_update by done.
  case_decide; [subst; rewrite bool_decide_eq_true_2 by done|
                rewrite bool_decide_eq_false_2 by done]; simpl.
  - by rewrite orb_true_r.
  - by rewrite orb_false_r.
Qed.

Lemma has_horizontal_fence_place_vertical :
  has_horizontal_fence (place_vertical_fence b sq) sq' =
  has_horizontal_fence b sq'.
Proof.
  unfold has_horizontal_fence, place_vertical_fence.
  rewrite square_state_update by done. by case_decide; subst.
Qed.

Lemma has_vertical_fence_place_horizontal :
  has_vertical_fence (place_horizontal_fence b sq) sq' =
  has_vertical_fence b sq'.
Proof.
  unfold has_vertical_fence, place_horizontal_fence.
  rewrite square_state_update by done. by case_decide; subst.
Qed.

End flags.

Lemma square_at_update f b sq sq' point :
  square_at (update_square f b sq) sq' point = square_at b sq' point.
Proof. by destruct point. Qed.

Lemma Coord_eq_iff (c r c' r' : Z) : Coord c r = Coord c' r' ↔ c = c' ∧ r = r'.
Proof. split; [by intros [= -> ->]|by intros [-> ->]]. Qed.

(** Decides an equation between disjunctions of fence flags and coordinate
    comparisons: every atom is replaced by its truth value, and the cases in
    which the two sides differ are refuted by arithmetic. *)
Ltac solve_span :=
  unfold in_bounds in *;
  repeat match goal with
  | c : Coordinate |- _ => destruct c
  end;
  cbn [x y] in *;
  repeat case_bool_decide;
  repeat match goal with
  | |- context [has_vertical_fence ?b ?c] => destruct (has_vertical_fence b c)
  | |- context [has_horizontal_fence ?b ?c] =>
      destruct (has_horizontal_fence b c)
  end;
  cbn [orb]; try reflexivity; exfalso;
  rewrite ?Coord_eq_iff in *;
  intuition (try discriminate; lia).

(** Placing a fence changes no coordinate lookup. *)
Ltac same_squares :=
  repeat match goal with
  | |- context [west_square (place_vertical_fence ?b ?s)] =>
      change (west_square (place_vertical_fence b s)) with (west_square b)
  | |- context [north_square (place_vertical_fence ?b ?s)] =>
      change (north_square (place_vertical_fence b s)) with (north_square b)
  | |- context [west_square (place_horizontal_fence ?b ?s)] =>
      change (west_square (place_horizontal_fence b s)) with (west_square b)
  | |- context [north_square (place_horizontal_fence ?b ?s)] =>
      change (north_square (place_horizontal_fence b s)) with (north_square b)
  end.

(** Case analysis on the neighbour lookups of a fence query. *)
Ltac case_squares :=
  repeat match goal with
  | |- context [match west_square ?b ?c with _ => _ end] =>
      let E := fresh "E" in
      destruct (west_square b c) eqn:E;
      [apply get_Some in E as (-> & ? & ?)|apply get_None in E];
      cbn [x y] in *
  | |- context [match north_square ?b ?c with _ => _ end] =>
      let E := fresh "E" in
      destruct (north_square b c) eqn:E;
      [apply get_Some in E as (-> & ? & ?)|apply get_None in E];
      cbn [x y] in *
  end.

Ltac on_board := done || (split; cbn [x y]; lia).

Section fence_geometry.
Context (b : Board) (Hwf : Board_wf b).

Lemma place_vertical_fence_blocks sq sq' point :
  in_bounds b sq → in_bounds b sq' →
  has_fence_at (place_vertical_fence b sq) sq' point =
  has_fence_at b sq' point || vertical_fence_span sq sq' point.
Proof.
  intros Hsq Hsq'. unfold vertical_fence_span.
  destruct point; cbn [has_fence_at];
    unfold west_fence, east_fence, north_fence, south_fence, and_then;
    same_squares; case_squares;
    rewrite ?has_vertical_fence_place_vertical,
      ?has_horizontal_fence_place_vertical by on_board;
    solve_span.
Qed.

Lemma place_horizontal_fence_blocks sq sq' point :
  in_bounds b sq → in_bounds b sq' →
  has_fence_at (place_horizontal_fence b sq) sq' point =
  has_fence_at b sq' point || horizontal_fence_span sq sq' point.
Proof.
  intros Hsq Hsq'. unfold horizontal_fence_span.
  destruct point; cbn [has_fence_at];
    unfold west_fence, east_fence, north_fence, south_fence, and_then;
    same_squares; case_squares;
    rewrite ?has_horizontal_fence_place_horizontal,
      ?has_vertical_fence_place_horizontal by on_board;
    solve_span.
Qed.

End fence_geometry.

(** C3, as the program has it.  Setting the vertical flag of an on-board
    square [(x, y)] closes exactly the unit edges between column [x] and
    column [x + 1] in rows [y] and [y + 1], and setting its horizontal flag
    closes exactly the unit edges between row [y] and row [y + 1] in columns
    [x] and [x + 1]: seen from any on-board square in any of the four
    directions, an edge is closed afterwards if and only if it was closed
    before or is one of these. *)
Theorem fence_flag_blocks_its_span b sq sq' point :
  Board_wf b → in_bounds b sq → in_bounds b sq' →
  has_fence_at (place_vertical_fence b sq) sq' point =
    has_fence_at b sq' point || vertical_fence_span sq sq' point
  ∧ has_fence_at (place_horizontal_fence b sq) sq' point =
    has_fence_at b sq' point || horizontal_fence_span sq sq' point.
Proof.
  intros Hwf Hsq Hsq'. split.
  - by apply place_vertical_fence_blocks.
  - by apply place_horizontal_fence_blocks.
Qed.

Lemma fence_flag_blocks_its_span_witness :
  let b := Board_init 9 9 in
  let sq := Coord 4 4 in
  let sq' := Coord 4 5 in
  Board_wf b ∧ in_bounds b sq ∧ in_bounds b sq' ∧
  (has_fence_at (place_vertical_fence b sq) sq' EAST =
     has_fence_at b sq' EAST || vertical_fence_span sq sq' EAST
   ∧ has_fence_at (place_horizontal_fence b sq) sq' EAST =
     has_fence_at b sq' EAST || horizontal_fence_span sq sq' EAST).
Proof.
  assert (Board_wf (Board_init 9 9)) as Hwf.
  { split; [reflexivity|]. repeat constructor. }
  assert (in_bounds (Board_init 9 9) (Coord 4 4)) as H4.
  { unfold in_bounds. simpl. lia. }
  assert (in_bounds (Board_init 9 9) (Coord 4 5)) as H5.
  { unfold in_bounds. simpl. lia. }
  split; [exact Hwf|]. split; [exact H4|]. split; [exact H5|].
  exact (fence_flag_blocks_its_span (Board_init 9 9) (Coord 4 4) (Coord 4 5)
           EAST Hwf H4 H5).
Defined.

(** C3, as the specification words it, fails on the empty 9x9 board for the
    fences anchored at e5: the vertical flag leaves the edge between columns
    d and e open and closes the edge between columns e and f; the horizontal
    flag leaves the edge between rows 4 and 5 open and closes the edge
    between rows 5 and 6. *)
Lemma spec_fence_span_counterexample :
  let b := Board_init 9 9 in
  let e5 := Coord 4 4 in
  (spec_vertical_fence_span e5 e5 WEST = true
   ∧ has_fence_at (place_vertical_fence b e5) e5 WEST = false)
  ∧ (spec_vertical_fence_span e5 e5 EAST = false
     ∧ has_fence_at (place_vertical_fence b e5) e5 EAST = true)
  ∧ (spec_horizontal_fence_span e5 e5 NORTH = true
     ∧ has_fence_at (place_horizontal_fence b e5) e5 NORTH = false)
  ∧ (spec_horizontal_fence_span e5 e5 SOUTH = false
     ∧ has_fence_at (place_horizontal_fence b e5) e5 SOUTH = true).
Proof. vm_compute. repeat split. Qed.

(** ** Fences only close edges *)

Section monotone.
Context (f : SquareState → SquareState).
Context (Hh : ∀ s, horizontal_flag s = true → horizontal_flag (f s) = true).
Context (Hv : ∀ s, vertical_flag s = true → vertical_flag (f s) = true).
Context (b : Board) (sq : Square).

Local Abbreviation b' := (update_square f b sq).

Lemma has_horizontal_fence_update_mono c :
  has_horizontal_fence b c = true → has_horizontal_fence b' c = true.
Proof.
  unfold has_horizontal_fence.
  destruct (square_state_update_cases f b sq c) as [->|[-> _]]; auto.
Qed.

Lemma has_vertical_fence_update_mono c :
  has_vertical_fence b c = true → has_vertical_fence b' c = true.
Proof.
  unfold has_vertical_fence.
  destruct (square_state_update_cases f b sq c) as [->|[-> _]]; auto.
Qed.

Lemma has_fence_at_update_mono c point :
  has_fence_at b c point = true → has_fence_at b' c point = true.
Proof.
  pose proof has_horizontal_fence_update_mono.
  pose proof has_vertical_fence_update_mono.
  destruct point; cbn [has_fence_at];
    unfold west_fence, east_fence, north_fence, south_fence, and_then;
    change (west_square b') with (west_square b);
    change (north_square b') with (north_square b);
    rewrite !orb_true_iff;
    repeat match goal with
    | |- context [match ?o with _ => _ end] => destruct o
    end; intuition auto.
Qed.

Lemma is_connected_update_mono c point :
  is_connected_with_square_at b' c point = true →
  is_connected_with_square_at b c point = true.
Proof.
  rewrite !is_connected_spec. intros [Hb Hf]. split; [exact Hb|].
  destruct (has_fence_at b c point) eqn:E; [|done].
  apply has_fence_at_update_mono in E. congruence.
Qed.

Lemma edge_update_mono c c' : edge b' c c' → edge b c c'.
Proof.
  unfold edge. rewrite !elem_of_cardinal_neighbors.
  intros (point & Hc & Hs). exists point. split.
  - by apply is_connected_update_mono.
  - by rewrite square_at_update in Hs.
Qed.

Lemma reachable_update_mono start goal_list :
  reachable b' start goal_list → reachable b start goal_list.
Proof.
  intros (goal & Hg & Hpath). exists goal. split; [done|].
  induction Hpath as [|c c1 c2 He _ IH]; [done|].
  apply rtc_l with c1; [by apply edge_update_mono|by apply IH].
Qed.

End monotone.

Lemma reachable_place_horizontal b sq start goal_list :
  reachable (place_horizontal_fence b sq) start goal_list →
  reachable b start goal_list.
Proof. apply reachable_update_mono; by intros []. Qed.

Lemma reachable_place_vertical b sq start goal_list :
  reachable (place_vertical_fence b sq) start goal_list →
  reachable b start goal_list.
Proof. apply reachable_update_mono; by intros []. Qed.

(** C8.  From a pawn square on the board, a goal list for which the search
    answers [True] after the horizontal or the vertical flag of a square has
    been set is one for which it answered [True] before: setting a flag
    never makes a goal newly reachable. *)
Theorem wall_monotonicity b sq start goal_list :
  in_bounds b start →
  search_succeeds (place_horizontal_fence b sq) start goal_list
  ∨ search_succeeds (place_vertical_fence b sq) start goal_list →
  search_succeeds b start goal_list.
Proof.
  intros Hb Hs. apply search_succeeds_iff; [done|].
  destruct Hs as [Hs|Hs]; apply search_succeeds_iff in Hs; try done.
  - by apply (reachable_place_horizontal b sq).
  - by apply (reachable_place_vertical b sq).
Qed.

Lemma wall_monotonicity_witness :
  let b := Board_init 9 9 in
  let e1 := Coord 4 0 in
  in_bounds b e1
  ∧ search_succeeds (place_horizontal_fence b (Coord 4 4)) e1 (get_row b 8)
  ∧ search_succeeds b e1 (get_row b 8).
Proof.
  assert (in_bounds (Board_init 9 9) (Coord 4 0)) as Hb.
  { unfold in_bounds. simpl. lia. }
  assert (search_succeeds (place_horizontal_fence (Board_init 9 9) (Coord 4 4))
            (Coord 4 0) (get_row (Board_init 9 9) 8)) as Hs.
  { exists 20%nat. vm_compute. reflexivity. }
  split; [exact Hb|]. split; [exact Hs|].
  exact (wall_monotonicity (Board_init 9 9) (Coord 4 4) (Coord 4 0)
           (get_row (Board_init 9 9) 8) Hb (or_introl Hs)).
Defined.

(** ** Rows closed by horizontal fences *)

(** A predicate that holds at the start, is kept by every open edge and
    fails at every goal rules out a path. *)
Lemma unreachable_by_invariant b (P : Square → Prop) start goal_list :
  P start → (∀ c c', P c → edge b c c' → P c') →
  (∀ goal, goal ∈ goal_list → ¬ P goal) →
  ¬ reachable b start goal_list.
Proof.
  intros Hstart Hstep Hgoal (goal & Hin & Hpath).
  apply (Hgoal goal Hin). clear Hin Hgoal.
  induction Hpath as [|c c1 c2 He _ IH]; [done|]. apply IH. by eapply Hstep.
Qed.

(** When every edge between row [r] and row [r + 1] is closed, an open edge
    stays on its side of the two rows. *)
Lemma closed_row_separates b r :
  forallb (fun col => has_fence_at b (Coord col r) SOUTH
                      && has_fence_at b (Coord col (r + 1)) NORTH)
    (seqZ 0 (width b)) = true →
  ∀ c c', edge b c c' → (y c ≤ r ↔ y c' ≤ r).
Proof.
  intros Hrow c c' (point & Hc & Hs)%elem_of_cardinal_neighbors.
  apply is_connected_spec in Hc as [_ Hopen].
  apply square_at_Some in Hs as [-> [Hx Hy]].
  rewrite forallb_forall in Hrow.
  assert (∀ col, 0 ≤ col < width b →
            has_fence_at b (Coord col r) SOUTH = true
            ∧ has_fence_at b (Coord col (r + 1)) NORTH = true) as Hcol.
  { intros col Hcol. apply andb_prop, Hrow, list_elem_of_In, elem_of_seqZ. lia. }
  destruct c as [col row]. destruct point; simpl in *; try lia.
  - destruct (decide (row = r + 1)) as [->|]; [|lia].
    destruct (Hcol col Hx) as [_ ?]. congruence.
  - destruct (decide (row = r)) as [->|]; [|lia].
    destruct (Hcol col Hx) as [? _]. congruence.
Qed.

Lemma row_nearly_closed_played :
  Game_moves 100 fence_row Game_start = Ret row_nearly_closed.
Proof. vm_compute. reflexivity. Qed.

Lemma row_closed_unreachable player :
  player ∈ players row_closed →
  ¬ reachable (board row_closed) (pawn player) (goals player).
Proof.
  intros Hp.
  pose proof (closed_row_separates (board row_closed) 0 eq_refl) as Hsep.
  assert (player = mkPlayer 10 (Coord 4 0) (get_row (Board_init 9 9) 8)
          ∨ player = mkPlayer 10 (Coord 4 8) (get_row (Board_init 9 9) 0))
    as Hcases.
  { change (players row_closed) with (players Game_start) in Hp.
    unfold Game_start in Hp. cbn [players] in Hp.
    apply elem_of_cons in Hp as [->|Hp]; [by left|].
    apply list_elem_of_singleton in Hp as ->. by right. }
  destruct Hcases as [Hcase|Hcase]; rewrite Hcase; clear Hcase Hp.
  - apply (unreachable_by_invariant _ (fun c => y c ≤ 0)); cbn [pawn goals].
    + simpl. lia.
    + intros c c' Hc He. by apply (Hsep c c' He).
    + intros goal (col & -> & _)%list_elem_of_fmap. simpl. lia.
  - apply (unreachable_by_invariant _ (fun c => ¬ y c ≤ 0)); cbn [pawn goals].
    + simpl. lia.
    + intros c c' Hc He. by rewrite <- (Hsep c c' He).
    + intros goal (col & -> & _)%list_elem_of_fmap. simpl. lia.
Qed.

Lemma row_closed_trapped :
  Forall (fun player =>
            ¬ reachable (board row_closed) (pawn player) (goals player))
    (players row_closed).
Proof. apply Forall_forall. apply row_closed_unreachable. Qed.

(** C1, refuted by the program.  From the opening position the fences a1h,
    c1h, e1h and g1h are accepted and placed.  The fence i1h is then
    accepted as well, because the search runs on the board as it is before
    the fence is placed; after [apply] the first row is closed off and
    neither player has a path to a goal square. *)
Theorem legal_fence_traps_both_players :
  let m := Move_PlaceFenceHorizontally (Coord 8 0) in
  Game_moves 100 fence_row Game_start = Ret row_nearly_closed
  ∧ Move_parse row_nearly_closed "i1h" = Ret m
  ∧ check_valid 100 row_nearly_closed m = Ret true
  ∧ apply row_nearly_closed m = Ret row_closed
  ∧ Forall (fun player =>
              ¬ reachable (board row_closed) (pawn player) (goals player))
      (players row_closed).
Proof.
  split_and!.
  - apply row_nearly_closed_played.
  - vm_compute. reflexivity.
  - vm_compute. reflexivity.
  - reflexivity.
  - apply row_closed_trapped.
Qed.

(** C2, refuted by the program.  On the board with the first row closed off
    the frontier of the search runs empty without a goal, and the search
    does not come back with [False]: it gives no answer, for either player,
    however many rounds of the [while] loop it is given. *)
Theorem search_hangs_when_trapped :
  ∀ fuel,
    Forall (fun player =>
              _can_player_reach_goal fuel (board row_closed) player = OutOfFuel)
      (players row_closed).
Proof.
  intros fuel. apply Forall_forall. intros player Hp.
  apply search_diverges.
  - change (players row_closed) with (players Game_start) in Hp.
    unfold Game_start in Hp. cbn [players] in Hp.
    apply elem_of_cons in Hp as [->|Hp];
      [|apply list_elem_of_singleton in Hp as ->];
      unfold in_bounds; simpl; lia.
  - by apply row_closed_unreachable.
Qed.

(** ** Pawn moves *)

Lemma elem_of_possible_moves g square_0 sq :
  sq ∈ possible_moves g square_0 ↔
  ∃ point, sq ∈ moves_toward g square_0 point.
Proof.
  unfold possible_moves, CardinalPoints. cbn [foldl].
  rewrite !elem_of_union. split.
  - intros [[[[H|H]|H]|H]|H]; eauto. by apply not_elem_of_empty in H.
  - intros [[] H]; tauto.
Qed.

Lemma shift_orthogonal_ne sq point orthogonal_point :
  orthogonal_point ∈ orthogonal_points point →
  shift sq orthogonal_point ≠ shift sq point.
Proof.
  destruct sq as [col row].
  destruct point; simpl;
    intros [->|[->|[]%elem_of_nil]%elem_of_cons]%elem_of_cons; simpl;
    rewrite Coord_eq_iff; lia.
Qed.

Lemma moves_toward_straight g square_0 point square_1 square_2 :
  is_connected_with_square_at (board g) square_0 point = true →
  square_at (board g) square_0 point = Some square_1 →
  has_pawn g square_1 = true →
  is_connected_with_square_at (board g) square_1 point = true →
  square_at (board g) square_1 point = Some square_2 →
  moves_toward g square_0 point = {[square_2]}.
Proof.
  intros H0 H1 Hp H2 H3. unfold moves_toward.
  rewrite H0, H1, Hp, H2, H3. simpl. apply leibniz_equiv.
  intros sq. rewrite elem_of_union, elem_of_singleton.
  split; [intros [?|[]%not_elem_of_empty]; done|by left].
Qed.

Lemma moves_toward_diagonal g square_0 point square_1 orthogonal_point
    square_2 :
  is_connected_with_square_at (board g) square_0 point = true →
  square_at (board g) square_0 point = Some square_1 →
  has_pawn g square_1 = true →
  is_connected_with_square_at (board g) square_1 point = false →
  orthogonal_point ∈ orthogonal_points point →
  is_connected_with_square_at (board g) square_1 orthogonal_point = true →
  square_at (board g) square_1 orthogonal_point = Some square_2 →
  square_2 ∈ moves_toward g square_0 point.
Proof.
  intros H0 H1 Hp H2 Ho H3 H4. unfold moves_toward.
  rewrite H0, H1, Hp, H2. simpl. apply elem_of_list_to_set.
  apply list_elem_of_In, in_flat_map. exists orthogonal_point.
  split; [by apply list_elem_of_In|]. rewrite H3, H4. by left.
Qed.

Lemma jump_open_played :
  Game_moves 100 face_to_face_moves Game_start = Ret jump_open.
Proof. vm_compute. reflexivity. Qed.

Lemma jump_walled_played :
  Game_moves 100 ["e5h"; "a1h"]%string jump_open = Ret jump_walled.
Proof. vm_compute. reflexivity. Qed.

Lemma pawns_fenced_apart_played :
  Game_moves 100 ["e3h"; "a1h"; "e4h"]%string jump_open
  = Ret pawns_fenced_apart.
Proof. vm_compute. reflexivity. Qed.

(** C5, with the premise that the program needs.  When the edge from the
    mover's square toward a direction is open, the neighbour in that
    direction holds a pawn and has no open edge onward in the same direction
    (fence or border), then every square reached from the neighbour through
    an open edge in one of the two orthogonal directions is a destination of
    the mover, and moving there is valid. *)
Theorem diagonal_jump_enabled g player point square_1 orthogonal_point
    square_2 :
  current_player g = Ret player →
  is_connected_with_square_at (board g) (pawn player) point = true →
  square_at (board g) (pawn player) point = Some square_1 →
  has_pawn g square_1 = true →
  is_connected_with_square_at (board g) square_1 point = false →
  orthogonal_point ∈ orthogonal_points point →
  is_connected_with_square_at (board g) square_1 orthogonal_point = true →
  square_at (board g) square_1 orthogonal_point = Some square_2 →
  square_2 ∈ possible_moves g (pawn player)
  ∧ Move_MovePawn_check_valid g square_2 = Ret true.
Proof.
  intros Hcur H0 H1 Hp H2 Ho H3 H4.
  assert (square_2 ∈ possible_moves g (pawn player)) as Hin.
  { apply elem_of_possible_moves. exists point.
    by eapply moves_toward_diagonal. }
  split; [done|].
  unfold Move_MovePawn_check_valid. rewrite Hcur. simpl. f_equal.
  by apply bool_decide_eq_true_2.
Qed.

Lemma diagonal_jump_enabled_witness :
  let g := jump_walled in
  let e4 := Coord 4 3 in
  let d5 := Coord 3 4 in
  d5 ∈ possible_moves g e4 ∧ Move_MovePawn_check_valid g d5 = Ret true.
Proof.
  apply (diagonal_jump_enabled jump_walled
           (mkPlayer 10 (Coord 4 3) (get_row (Board_init 9 9) 8))
           SOUTH (Coord 4 4) WEST (Coord 3 4));
    try reflexivity.
  apply elem_of_cons. by left.
Defined.

(** C5, as worded, fails when a fence lies between the mover and the
    neighbour.  The pawn on e5 is to move, the pawn on e4 is its northern
    neighbour, the edge from e4 onward to the north is fenced, the edge from
    e4 to d4 is open, and d4 is not a valid move. *)
Lemma diagonal_jump_counterexample :
  let g := pawns_fenced_apart in
  let e5 := Coord 4 4 in
  let e4 := Coord 4 3 in
  let d4 := Coord 3 3 in
  (do player <- current_player g; Ret (pawn player)) = Ret e5
  ∧ square_at (board g) e5 NORTH = Some e4
  ∧ has_pawn g e4 = true
  ∧ is_connected_with_square_at (board g) e4 NORTH = false
  ∧ WEST ∈ orthogonal_points NORTH
  ∧ is_connected_with_square_at (board g) e4 WEST = true
  ∧ square_at (board g) e4 WEST = Some d4
  ∧ Move_MovePawn_check_valid g d4 = Ret false
  ∧ is_connected_with_square_at (board g) e5 NORTH = false.
Proof.
  split_and!; try (vm_compute; reflexivity).
  apply elem_of_cons. by left.
Qed.

(** ** Move notation *)

Lemma list_index_Ret n i k :
  list_index n i = Ret k ↔
  (0 ≤ i < Z.of_nat n ∧ k = Z.to_nat i)
  ∨ (- Z.of_nat n ≤ i < 0 ∧ k = Z.to_nat (Z.of_nat n + i)).
Proof.
  unfold list_index.
  destruct ((0 <=? i) && (i <? Z.of_nat n)) eqn:E1.
  - apply andb_prop in E1 as [?%Z.leb_le ?%Z.ltb_lt].
    split; [intros [= <-]; left; lia|]. intros [[_ ->]|[? _]]; [done|lia].
  - destruct ((- Z.of_nat n <=? i) && (i <? 0)) eqn:E2.
    + apply andb_prop in E2 as [?%Z.leb_le ?%Z.ltb_lt].
      split; [intros [= <-]; right; lia|]. intros [[? _]|[_ ->]]; [lia|done].
    + split; [done|]. apply andb_false_iff in E1, E2.
      rewrite Z.leb_gt, Z.ltb_ge in E1, E2. lia.
Qed.

(** On a board as [Board.__init__] builds it, a two-character coordinate is
    accepted exactly when its row digit is in [0, height] and its column
    index in [-width, width): row 0 and the columns before [a] are read from
    the far end of the table. *)
Lemma Board_getitem_Ret b c0 c1 rest sq :
  Board_wf b →
  Board_getitem b (String c0 (String c1 rest)) = Ret sq ↔
  ∃ v, int_of_char c1 = Ret v
       ∧ list_index (Z.to_nat (height b)) (v - 1) = Ret (Z.to_nat (y sq))
       ∧ list_index (Z.to_nat (width b)) (ord c0 - ord "a")
         = Ret (Z.to_nat (x sq))
       ∧ 0 ≤ x sq ∧ 0 ≤ y sq.
Proof.
  intros [Hh Hw]. unfold Board_getitem. rewrite Hh.
  destruct (int_of_char c1) as [v| |]; simpl.
  2,3: split; [done|by intros (? & ? & _)].
  destruct (list_index (Z.to_nat (height b)) (v - 1)) as [r| |] eqn:Er; simpl.
  2,3: split; [done|intros (? & [= <-] & ? & _); congruence].
  assert (r < Z.to_nat (height b))%nat as Hr.
  { apply list_index_Ret in Er. lia. }
  destruct (lookup_lt_is_Some_2 (table b) r) as [row Hrow]; [lia|].
  rewrite Hrow. simpl. rewrite Forall_forall in Hw.
  rewrite (Hw row) by (by eapply list_elem_of_lookup_2).
  destruct (list_index (Z.to_nat (width b)) _) as [c| |] eqn:Ec; simpl.
  2,3: split; [done|intros (? & [= <-] & ? & ? & _); congruence].
  split.
  - intros [= <-]. exists v. simpl. rewrite !Nat2Z.id.
    split_and!; try done; lia.
  - intros (? & [= <-] & Hy & Hx & ? & ?).
    rewrite Er in Hy. injection Hy as ->. injection Hx as ->.
    destruct sq as [col row']. simpl in *. f_equal. f_equal; lia.
Qed.

Lemma parse_rejects_other_suffix g s c :
  String.get 2 s = Some c → c ≠ "h"%char → c ≠ "v"%char →
  ∀ m, Move_parse g s ≠ Ret m.
Proof.
  intros Hget Hh Hv m. unfold Move_parse.
  destruct (Board_getitem _ _) as [coordinate|e|]; simpl; [|done|done].
  destruct (String.length s <? 3)%nat eqn:Hlen.
  - apply Nat.ltb_lt in Hlen.
    assert (String.get 2 s = None) as Hnone; [|congruence].
    clear -Hlen. destruct s as [|c0 [|c1 [|c2 s]]]; simpl in *; try done; lia.
  - rewrite Hget.
    destruct c as [[] [] [] [] [] [] [] []]; try done.
Qed.

(** C6, refuted by the program.  On the 9x9 board the row digit 0 gives the
    index -1, which reads the last row of the table, and the character
    before [a] gives the column index -1, which reads the last column: both
    strings designate a coordinate outside the grid and both parse to a move
    on a square of the board.  Played after e8 and e2, the string e0 moves
    the pawn from e8 back to e9 and passes the turn. *)
Theorem parse_wraps_negative_index :
  Move_parse Game_start "e0" = Ret (Move_MovePawn (Coord 4 8))
  ∧ Move_parse Game_start "`1v" = Ret (Move_PlaceFenceVertically (Coord 8 0))
  ∧ (do g <- Game_moves 100 ["e8"; "e2"; "e0"]%string Game_start;
     Ret (pawn <$> players g, turn g))
    = Ret ([Coord 4 1; Coord 4 8], Some 4).
Proof. split_and!; vm_compute; reflexivity. Qed.

(** ** The validators hand the game back

    Each validator, run as a program on the game, ends with the game it was
    given and with the answer of the corresponding function of the game. *)

Lemma st_for_pure {A B : Type} (body : B → A → St B) (f : Game → B → A → B)
    (l : list A) :
  (∀ acc a g, body acc a g = Ret (f g acc a, g)) →
  ∀ acc g, st_for body l acc g = Ret (foldl (f g) acc l, g).
Proof.
  intros Hbody. induction l as [|a rest IH]; intros acc g; simpl; [done|].
  unfold st_bind. by rewrite Hbody, IH.
Qed.

Lemma st_pawn_direction_pure square_0 possible point g :
  st_pawn_direction square_0 possible point g
  = Ret (possible ∪ moves_toward g square_0 point, g).
Proof.
  unfold st_pawn_direction, moves_toward, st_bind, st_read, st_ret.
  destruct (is_connected_with_square_at (board g) square_0 point); simpl;
    [|by rewrite (right_id_L ∅ (∪))].
  destruct (square_at (board g) square_0 point) as [square_1|];
    [|by rewrite (right_id_L ∅ (∪))].
  destruct (has_pawn g square_1); [|done].
  destruct (is_connected_with_square_at (board g) square_1 point); [done|].
  destruct point; simpl; unfold st_bind, st_read, st_ret;
    repeat match goal with
    | |- context [is_connected_with_square_at ?b ?s ?p] =>
        destruct (is_connected_with_square_at b s p)
    end;
    repeat match goal with
    | |- context [option_list (square_at ?b ?s ?p)] =>
        destruct (square_at b s p)
    end; simpl; do 2 f_equal; apply leibniz_equiv; set_solver.
Qed.

Lemma st_Move_MovePawn_check_valid_pure square g :
  st_Move_MovePawn_check_valid square g
  = do ok <- Move_MovePawn_check_valid g square; Ret (ok, g).
Proof.
  unfold st_Move_MovePawn_check_valid, Move_MovePawn_check_valid, st_bind,
    st_try.
  destruct (current_player g) as [player| |]; cbn [bind]; [|done|done].
  rewrite (st_for_pure _
             (fun g acc point => acc ∪ moves_toward g (pawn player) point));
    [done|]. intros acc point g0. apply st_pawn_direction_pure.
Qed.

Lemma st_bfs_round_pure goal_list w : ∀ visited queue g,
  st_bfs_round goal_list w visited queue g
  = Ret (bfs_round (board g) goal_list w visited queue, g).
Proof.
  induction w as [|w IH]; intros visited queue g; simpl; [done|].
  destruct queue as [|square rest]; [done|].
  case_bool_decide; [done|]. case_bool_decide; [apply IH|].
  unfold st_bind, st_read. apply IH.
Qed.

Lemma st_bfs_loop_pure fuel goal_list : ∀ visited queue g,
  st_bfs_loop fuel goal_list visited queue g
  = do ok <- bfs_loop fuel (board g) goal_list visited queue; Ret (ok, g).
Proof.
  induction fuel as [|fuel IH]; intros visited queue g; simpl; [done|].
  unfold st_bind. rewrite st_bfs_round_pure.
  destruct (bfs_round _ _ _ _ _); [done|done|apply IH].
Qed.

Lemma st_every_player_reaches_pure fuel ps g :
  st_every_player_reaches fuel ps g
  = do ok <- every_player_reaches fuel (board g) ps; Ret (ok, g).
Proof.
  induction ps as [|player rest IH]; simpl; [done|].
  unfold st_bind, st_can_player_reach_goal, _can_player_reach_goal.
  rewrite st_bfs_loop_pure.
  destruct (bfs_loop _ _ _ _ _) as [[]| |]; simpl; try done.
Qed.

Lemma st_and_then_pure s f g :
  st_and_then s f g = Ret (and_then s (f (board g)), g).
Proof. by destruct s. Qed.

(** The program and the function agree, and the game is not changed. *)
Lemma st_check_valid_pure fuel m g :
  st_check_valid fuel m g = do ok <- check_valid fuel g m; Ret (ok, g).
Proof.
  destruct m as [square|square|square]; simpl.
  - apply st_Move_MovePawn_check_valid_pure.
  - unfold st_Move_PlaceFenceHorizontally_check_valid,
      Move_PlaceFenceHorizontally_check_valid, st_bind, st_read.
    destruct (has_horizontal_fence (board g) square); [done|].
    rewrite st_and_then_pure. destruct (and_then _ _); [done|].
    apply st_every_player_reaches_pure.
  - unfold st_Move_PlaceFenceVertically_check_valid,
      Move_PlaceFenceVertically_check_valid, st_bind, st_read.
    destruct (has_vertical_fence (board g) square); [done|].
    rewrite st_and_then_pure. destruct (and_then _ _); [done|].
    apply st_every_player_reaches_pure.
Qed.

(** ** Validation *)

(** C7.  Run on a game, [check_valid] hands back the game it received,
    board, pawns and turn counter included, whatever the move and the
    answer; a second call on that game gives the same answer; and when the
    answer is [False], a call of [Game.move] with a string that parses to
    the move ends, if it ends, with the game as it was, and it does end
    so in a started game that has players. *)
Theorem validation_changes_nothing fuel m g ok g' :
  st_check_valid fuel m g = Ret (ok, g') →
  g' = g
  ∧ st_check_valid fuel m g' = Ret (ok, g')
  ∧ (ok = false → ∀ s, Move_parse g s = Ret m →
     (∀ g'', Game_move fuel s g = Ret g'' → g'' = g)
     ∧ (turn g ≠ None → players g ≠ [] → Game_move fuel s g = Ret g)).
Proof.
  intros Hv. assert (g' = g) as ->.
  { rewrite st_check_valid_pure in Hv.
    destruct (check_valid fuel g m); simpl in Hv; congruence. }
  split_and!; [done|done|]. intros -> s Hp.
  assert (∀ t, turn g = Some t → Game_move fuel s g = Game_start_turn g)
    as Hmove.
  { intros t Ht. unfold Game_move. by rewrite Ht, Hp; simpl; rewrite Hv. }
  split.
  - intros g'' Hm. destruct (turn g) as [t|] eqn:Ht.
    + rewrite (Hmove t eq_refl) in Hm. unfold Game_start_turn in Hm.
      destruct (current_player g); simpl in Hm; congruence.
    + unfold Game_move in Hm. by rewrite Ht in Hm.
  - intros Ht Hps. destruct (turn g) as [t|] eqn:Ht'; [|done].
    rewrite (Hmove t eq_refl). unfold Game_start_turn, current_player,
      current_index. rewrite Ht'.
    assert (0 < Z.of_nat (length (players g))) as Hn.
    { destruct (players g); [done|]. simpl length. lia. }
    assert ((Z.of_nat (length (players g)) =? 0) = false) as ->
      by (apply Z.eqb_neq; lia).
    simpl.
    pose proof (Z.mod_pos_bound t _ Hn) as Hmod.
    destruct (lookup_lt_is_Some_2 (players g)
                (Z.to_nat (t `mod` Z.of_nat (length (players g)))))
      as [player ->]; [lia|done].
Qed.

Lemma validation_changes_nothing_witness :
  let m := Move_PlaceFenceHorizontally (Coord 5 0) in
  let g := row_nearly_closed in
  st_check_valid 100 m g = Ret (false, g)
  ∧ Game_move 100 "f1h" g = Ret g.
Proof.
  assert (st_check_valid 100 (Move_PlaceFenceHorizontally (Coord 5 0))
            row_nearly_closed = Ret (false, row_nearly_closed)) as Hv.
  { vm_compute. reflexivity. }
  split; [exact Hv|].
  apply (proj2 (proj2 (validation_changes_nothing 100 _ _ _ _ Hv)) eq_refl
           "f1h"%string); [vm_compute; reflexivity|discriminate|discriminate].
Defined.

(** ** Fence placement *)

Lemma every_player_reaches_complete b ps :
  (∀ player, player ∈ ps → in_bounds b (pawn player)) →
  (∀ player, player ∈ ps → reachable b (pawn player) (goals player)) →
  every_player_reaches (enough_fuel b) b ps = Ret true.
Proof.
  induction ps as [|player rest IH]; intros Hb Hr; simpl; [done|].
  unfold _can_player_reach_goal.
  rewrite (bfs_loop_complete b (goals player) (pawn player)).
  - simpl. apply IH; intros p Hp; [apply Hb|apply Hr]; by right.
  - apply bfs_inv_init, Hb. by left.
  - apply Hr. by left.
  - unfold bfs_measure, enough_fuel. simpl.
    assert (size (all_squares b ∖ ∅) ≤ size (all_squares b))%nat; [|lia].
    apply subseteq_size. intros sq [? _]%elem_of_difference. done.
Qed.

Section fence_checks.
Context (g : Game).
Local Abbreviation b := (board g).

(** With no horizontal flag on the anchor and none on its east neighbour,
    the answer is that of the loop over the players. *)
Lemma horizontal_checks_passed fuel square :
  has_horizontal_fence b square = false →
  and_then (east_square b square) (has_horizontal_fence b) = false →
  Move_PlaceFenceHorizontally_check_valid fuel g square
  = every_player_reaches fuel b (players g).
Proof.
  intros H1 H2. unfold Move_PlaceFenceHorizontally_check_valid.
  by rewrite H1, H2.
Qed.

Lemma vertical_checks_passed fuel square :
  has_vertical_fence b square = false →
  and_then (south_square b square) (has_vertical_fence b) = false →
  Move_PlaceFenceVertically_check_valid fuel g square
  = every_player_reaches fuel b (players g).
Proof.
  intros H1 H2. unfold Move_PlaceFenceVertically_check_valid.
  by rewrite H1, H2.
Qed.

Lemma horizontal_accepted square :
  pawns_on_board g → every_player_has_path g →
  has_horizontal_fence b square = false →
  and_then (east_square b square) (has_horizontal_fence b) = false →
  accepted g (Move_PlaceFenceHorizontally square).
Proof.
  intros Hb Hr H1 H2. exists (enough_fuel b). simpl.
  rewrite horizontal_checks_passed by done.
  by apply every_player_reaches_complete.
Qed.

Lemma vertical_accepted square :
  pawns_on_board g → every_player_has_path g →
  has_vertical_fence b square = false →
  and_then (south_square b square) (has_vertical_fence b) = false →
  accepted g (Move_PlaceFenceVertically square).
Proof.
  intros Hb Hr H1 H2. exists (enough_fuel b). simpl.
  rewrite vertical_checks_passed by done.
  by apply every_player_reaches_complete.
Qed.

End fence_checks.

Lemma fences_beside_e5_played :
  Game_moves 100 ["d5h"; "e4v"]%string Game_start = Ret fences_beside_e5.
Proof. vm_compute. reflexivity. Qed.

Lemma horizontal_at_e5_played :
  Game_move 100 "e5h" Game_start = Ret horizontal_at_e5.
Proof. vm_compute. reflexivity. Qed.

Lemma vertical_at_e5_played :
  Game_move 100 "e5v" Game_start = Ret vertical_at_e5.
Proof. vm_compute. reflexivity. Qed.

(** C9.  The overlap check looks at one side only.  With every pawn on the
    board and a path to a goal for every player: a horizontal fence whose
    anchor and east neighbour carry no horizontal flag is accepted although
    the west neighbour of the anchor carries one, and the edge south of the
    anchor, already closed, lies in the span of both fences; likewise a
    vertical fence whose anchor and south neighbour carry no vertical flag is
    accepted although the north neighbour carries one, and the edge east of
    the anchor lies in the span of both fences. *)
Theorem overlap_check_is_one_sided g square neighbor :
  pawns_on_board g → every_player_has_path g →
  (west_square (board g) square = Some neighbor →
   has_horizontal_fence (board g) neighbor = true →
   has_horizontal_fence (board g) square = false →
   and_then (east_square (board g) square) (has_horizontal_fence (board g))
     = false →
   accepted g (Move_PlaceFenceHorizontally square)
   ∧ has_fence_at (board g) square SOUTH = true
   ∧ horizontal_fence_span neighbor square SOUTH = true
   ∧ horizontal_fence_span square square SOUTH = true)
  ∧ (north_square (board g) square = Some neighbor →
     has_vertical_fence (board g) neighbor = true →
     has_vertical_fence (board g) square = false →
     and_then (south_square (board g) square) (has_vertical_fence (board g))
       = false →
     accepted g (Move_PlaceFenceVertically square)
     ∧ has_fence_at (board g) square EAST = true
     ∧ vertical_fence_span neighbor square EAST = true
     ∧ vertical_fence_span square square EAST = true).
Proof.
  intros Hb Hr. split; intros Hn Hflag H1 H2.
  - split_and!.
    + by apply horizontal_accepted.
    + simpl. unfold south_fence. by rewrite Hn, H1; simpl.
    + apply get_Some in Hn as (-> & _). apply bool_decide_eq_true_2.
      simpl. split; [by left|lia].
    + apply bool_decide_eq_true_2. split; [by left|lia].
  - split_and!.
    + by apply vertical_accepted.
    + simpl. unfold east_fence. by rewrite Hn, H1; simpl.
    + apply get_Some in Hn as (-> & _). apply bool_decide_eq_true_2.
      simpl. split; [by left|lia].
    + apply bool_decide_eq_true_2. split; [by left|lia].
Qed.

Lemma opening_players_have_paths b t :
  (∀ player, player ∈ players Game_start →
     search_succeeds b (pawn player) (goals player)) →
  width b = 9 → height b = 9 →
  pawns_on_board (mkGame b (players Game_start) t true)
  ∧ every_player_has_path (mkGame b (players Game_start) t true).
Proof.
  intros Hs Hw Hh.
  assert (∀ player, player ∈ players Game_start → in_bounds b (pawn player))
    as Hb.
  { intros player Hp. unfold Game_start in Hp. cbn [players] in Hp.
    apply elem_of_cons in Hp as [->|Hp];
      [|apply list_elem_of_singleton in Hp as ->];
      unfold in_bounds; rewrite Hw, Hh; simpl; lia. }
  split; [exact Hb|].
  intros player Hp. apply search_succeeds_iff; [by apply Hb|by apply Hs].
Qed.

Lemma overlap_check_is_one_sided_witness :
  let g := fences_beside_e5 in
  let e5 := Coord 4 4 in
  (accepted g (Move_PlaceFenceHorizontally e5)
   ∧ has_fence_at (board g) e5 SOUTH = true
   ∧ horizontal_fence_span (Coord 3 4) e5 SOUTH = true
   ∧ horizontal_fence_span e5 e5 SOUTH = true)
  ∧ (accepted g (Move_PlaceFenceVertically e5)
     ∧ has_fence_at (board g) e5 EAST = true
     ∧ vertical_fence_span (Coord 4 3) e5 EAST = true
     ∧ vertical_fence_span e5 e5 EAST = true).
Proof.
  destruct (opening_players_have_paths (board fences_beside_e5) (Some 3))
    as [Hb Hr]; [|reflexivity|reflexivity|].
  { intros player Hp. exists 20%nat. unfold Game_start in Hp.
    cbn [players] in Hp.
    apply elem_of_cons in Hp as [->|Hp];
      [|apply list_elem_of_singleton in Hp as ->];
      vm_compute; reflexivity. }
  split.
  - apply (proj1 (overlap_check_is_one_sided fences_beside_e5 (Coord 4 4)
                    (Coord 3 4) Hb Hr)); reflexivity.
  - apply (proj2 (overlap_check_is_one_sided fences_beside_e5 (Coord 4 4)
                    (Coord 4 3) Hb Hr)); reflexivity.
Defined.

(** C10.  The validator of a fence reads no flag of the other orientation.
    Two games that agree on the vertical flag of the anchor, on what the
    south-neighbour test reads and on the outcome of the loop over the
    players get the same answer for a vertical fence, whatever their
    horizontal flags; a vertical fence on an anchor that carries a
    horizontal flag passes the duplicate and the overlap check, and its
    answer is that of the loop over the players.  The same holds for a
    horizontal fence, with the east neighbour and the vertical flags. *)
Theorem crossing_flag_not_consulted fuel g g' square :
  (has_vertical_fence (board g) square = has_vertical_fence (board g') square →
   and_then (south_square (board g) square) (has_vertical_fence (board g))
   = and_then (south_square (board g') square) (has_vertical_fence (board g')) →
   every_player_reaches fuel (board g) (players g)
   = every_player_reaches fuel (board g') (players g') →
   Move_PlaceFenceVertically_check_valid fuel g square
   = Move_PlaceFenceVertically_check_valid fuel g' square)
  ∧ (has_horizontal_fence (board g) square
     = has_horizontal_fence (board g') square →
     and_then (east_square (board g) square) (has_horizontal_fence (board g))
     = and_then (east_square (board g') square)
         (has_horizontal_fence (board g')) →
     every_player_reaches fuel (board g) (players g)
     = every_player_reaches fuel (board g') (players g') →
     Move_PlaceFenceHorizontally_check_valid fuel g square
     = Move_PlaceFenceHorizontally_check_valid fuel g' square)
  ∧ (has_horizontal_fence (board g) square = true →
     has_vertical_fence (board g) square = false →
     and_then (south_square (board g) square) (has_vertical_fence (board g))
     = false →
     Move_PlaceFenceVertically_check_valid fuel g square
     = every_player_reaches fuel (board g) (players g))
  ∧ (has_vertical_fence (board g) square = true →
     has_horizontal_fence (board g) square = false →
     and_then (east_square (board g) square) (has_horizontal_fence (board g))
     = false →
     Move_PlaceFenceHorizontally_check_valid fuel g square
     = every_player_reaches fuel (board g) (players g)).
Proof.
  split_and!.
  - intros H1 H2 H3. unfold Move_PlaceFenceVertically_check_valid.
    by rewrite H1, H2, H3.
  - intros H1 H2 H3. unfold Move_PlaceFenceHorizontally_check_valid.
    by rewrite H1, H2, H3.
  - intros _. apply vertical_checks_passed.
  - intros _. apply horizontal_checks_passed.
Qed.

Lemma crossing_flag_not_consulted_witness :
  let e5 := Coord 4 4 in
  (Move_PlaceFenceVertically_check_valid 100 horizontal_at_e5 e5
   = Move_PlaceFenceVertically_check_valid 100 Game_start e5)
  ∧ (Move_PlaceFenceHorizontally_check_valid 100 vertical_at_e5 e5
     = Move_PlaceFenceHorizontally_check_valid 100 Game_start e5)
  ∧ (Move_PlaceFenceVertically_check_valid 100 horizontal_at_e5 e5
     = every_player_reaches 100 (board horizontal_at_e5)
         (players horizontal_at_e5))
  ∧ (Move_PlaceFenceHorizontally_check_valid 100 vertical_at_e5 e5
     = every_player_reaches 100 (board vertical_at_e5)
         (players vertical_at_e5)).
Proof.
  pose proof (crossing_flag_not_consulted 100 horizontal_at_e5 Game_start
                (Coord 4 4)) as (Hv & _ & Hcv & _).
  pose proof (crossing_flag_not_consulted 100 vertical_at_e5 Game_start
                (Coord 4 4)) as (_ & Hh & _ & Hch).
  split_and!.
  - apply Hv; vm_compute; reflexivity.
  - apply Hh; vm_compute; reflexivity.
  - apply Hcv; vm_compute; reflexivity.
  - apply Hch; vm_compute; reflexivity.
Defined.

(** ** The games of the test file *)

(** [test_game_1] runs through: 27 of its 29 strings are accepted (h4 and
    d2, asked of the pawn on d5, are not), and the pawns end on d3 and d5. *)
Lemma test_game_1_played :
  (do g <- Game_moves 100 test_game_1 Game_start;
   Ret (pawn <$> players g, turn g, is_ingame g))
  = Ret ([Coord 3 2; Coord 3 4], Some 28, true).
Proof. vm_compute. reflexivity. Qed.

(** * Further properties

    ** Neighbour lookups and open edges *)

(** X1.  A neighbour lookup gives the square one step away in the direction
    when that coordinate is on the board, and [None] exactly when it is
    not. *)
Theorem neighbor_lookup_bounds b sq point :
  (∀ sq', square_at b sq point = Some sq' ↔
          sq' = shift sq point ∧ in_bounds b sq')
  ∧ (square_at b sq point = None ↔ ¬ in_bounds b (shift sq point)).
Proof. split; [intros sq'; apply square_at_Some|apply square_at_None]. Qed.

(** X2.  The squares [cardinal_neighbors] yields are the squares one step
    away that are on the board and not cut off by a fence; there are at most
    four of them. *)
Theorem cardinal_neighbors_are_open_neighbors b sq :
  (∀ sq', sq' ∈ cardinal_neighbors b sq ↔
          ∃ point, sq' = shift sq point ∧ in_bounds b sq'
                   ∧ has_fence_at b sq point = false)
  ∧ (length (cardinal_neighbors b sq) ≤ 4)%nat.
Proof.
  split; [|apply cardinal_neighbors_length].
  intros sq'. rewrite elem_of_cardinal_neighbors. split.
  - intros (point & Hc & Hs). exists point.
    apply square_at_Some in Hs as [-> ?]. apply is_connected_spec in Hc.
    tauto.
  - intros (point & -> & Hb & Hf). exists point. split.
    + by apply is_connected_spec.
    + by apply square_at_Some.
Qed.

Lemma shift_opposite sq point : shift (shift sq point) (opposite point) = sq.
Proof. destruct sq, point; simpl; f_equal; lia. Qed.

(** Replaces a match on a neighbour lookup by its two cases. *)
Ltac case_lookups :=
  repeat match goal with
  | |- context [west_square ?b ?c] =>
      let E := fresh "E" in
      destruct (west_square b c) eqn:E;
      [apply get_Some in E as (-> & ? & ?)|apply get_None in E];
      cbn [x y] in *
  | |- context [north_square ?b ?c] =>
      let E := fresh "E" in
      destruct (north_square b c) eqn:E;
      [apply get_Some in E as (-> & ? & ?)|apply get_None in E];
      cbn [x y] in *
  end.

(** The two squares of an edge agree on whether a fence closes it. *)
Lemma has_fence_at_opposite b sq point :
  in_bounds b sq → in_bounds b (shift sq point) →
  has_fence_at b (shift sq point) (opposite point) = has_fence_at b sq point.
Proof.
  unfold in_bounds. destruct sq as [col row].
  destruct point; cbn [shift opposite has_fence_at x y]; intros Hsq Hsq';
    unfold west_fence, east_fence, north_fence, south_fence, and_then;
    case_lookups; cbn [x y] in *;
    rewrite ?Z.add_simpl_r, ?Z.sub_add; try reflexivity; lia.
Qed.

(** X3.  Open edges run both ways: from a square of the board, if a
    neighbour can be stepped to then the step back is open too, and so a
    path to a square is also a path back from it. *)
Theorem open_edges_are_symmetric b sq sq' :
  in_bounds b sq →
  (edge b sq sq' → edge b sq' sq)
  ∧ (rtc (edge b) sq sq' → rtc (edge b) sq' sq).
Proof.
  assert (∀ c c', in_bounds b c → edge b c c' → edge b c' c) as Hsym.
  { intros c c' Hc (point & Ho & Hs)%elem_of_cardinal_neighbors.
    apply square_at_Some in Hs as [-> Hc'].
    apply is_connected_spec in Ho as [_ Hf].
    apply elem_of_cardinal_neighbors. exists (opposite point). split.
    - apply is_connected_spec. rewrite shift_opposite. split; [done|].
      by rewrite has_fence_at_opposite.
    - apply square_at_Some. by rewrite shift_opposite. }
  intros Hsq. split; [by apply Hsym|].
  intros Hpath. induction Hpath as [|c c1 c2 He _ IH]; [done|].
  eapply rtc_r; [apply IH; by eapply edge_in_bounds|by apply Hsym].
Qed.

Lemma open_edges_are_symmetric_witness :
  let b := board row_nearly_closed in
  let i1 := Coord 8 0 in
  let i2 := Coord 8 1 in
  in_bounds b i1 ∧ edge b i1 i2 ∧ edge b i2 i1.
Proof.
  assert (in_bounds (board row_nearly_closed) (Coord 8 0)) as Hb.
  { unfold in_bounds. simpl. lia. }
  assert (edge (board row_nearly_closed) (Coord 8 0) (Coord 8 1)) as He.
  { apply elem_of_cardinal_neighbors. exists SOUTH. by vm_compute. }
  split; [exact Hb|]. split; [exact He|].
  exact (proj1 (open_edges_are_symmetric (board row_nearly_closed)
                  (Coord 8 0) (Coord 8 1) Hb) He).
Defined.

(** ** The search as a whole *)

(** X4.  From a pawn square on the board, [_can_player_reach_goal] comes
    back with [True], given enough rounds, exactly when some square of the
    player's goals can be walked to through open edges. *)
Theorem search_true_iff_path b player :
  in_bounds b (pawn player) →
  (∃ fuel, _can_player_reach_goal fuel b player = Ret true)
  ↔ reachable b (pawn player) (goals player).
Proof. intros Hb. by apply search_succeeds_iff. Qed.

Lemma search_true_iff_path_witness :
  let b := board row_nearly_closed in
  let player := mkPlayer 10 (Coord 4 0) (get_row b 8) in
  in_bounds b (pawn player) ∧ reachable b (pawn player) (goals player).
Proof.
  assert (in_bounds (board row_nearly_closed) (Coord 4 0)) as Hb.
  { unfold in_bounds. simpl. lia. }
  split; [exact Hb|].
  apply (proj1 (search_true_iff_path (board row_nearly_closed)
                  (mkPlayer 10 (Coord 4 0)
                     (get_row (board row_nearly_closed) 8)) Hb)).
  exists 30%nat. vm_compute. reflexivity.
Defined.

(** X5.  The search never comes back with [False]; from a pawn square on the
    board with no goal square in reach it does not come back at all,
    however many rounds it is given. *)
Theorem search_never_answers_false b player fuel :
  _can_player_reach_goal fuel b player ≠ Ret false
  ∧ (in_bounds b (pawn player) →
     ¬ reachable b (pawn player) (goals player) →
     _can_player_reach_goal fuel b player = OutOfFuel).
Proof.
  split; [apply bfs_loop_never_false|]. intros Hb Hn. by apply search_diverges.
Qed.

Lemma search_never_answers_false_witness :
  let b := board row_closed in
  let player := mkPlayer 10 (Coord 4 0) (get_row (Board_init 9 9) 8) in
  _can_player_reach_goal 1000 b player = OutOfFuel.
Proof.
  apply (proj2 (search_never_answers_false (board row_closed)
                  (mkPlayer 10 (Coord 4 0) (get_row (Board_init 9 9) 8))
                  1000)).
  - unfold in_bounds. simpl. lia.
  - apply (row_closed_unreachable
             (mkPlayer 10 (Coord 4 0) (get_row (Board_init 9 9) 8))).
    apply elem_of_cons. by left.
Defined.

Lemma size_list_to_set_le (l : list Square) :
  (size (list_to_set l : gset Square) ≤ length l)%nat.
Proof.
  induction l as [|c l IH].
  - change (size (∅ : gset Square) ≤ 0)%nat. by rewrite size_empty.
  - rewrite list_to_set_cons, size_union_alt, size_singleton. simpl.
    assert (size (list_to_set l ∖ {[c]} : gset Square)
            ≤ size (list_to_set l : gset Square))%nat; [|lia].
    apply subseteq_size. intros sq [? _]%elem_of_difference. done.
Qed.

Lemma all_squares_size b :
  (size (all_squares b) ≤ Z.to_nat (width b) * Z.to_nat (height b))%nat.
Proof.
  unfold all_squares. etrans; [apply size_list_to_set_le|].
  assert (∀ rows : list Z,
            length (row ← rows; (fun col => Coord col row) <$> seqZ 0 (width b))
            = (length rows * Z.to_nat (width b))%nat) as Hlen.
  { induction rows as [|row rows IH]; [done|].
    rewrite bind_cons, length_app, length_fmap, length_seqZ, IH. simpl. lia. }
  rewrite Hlen, length_seqZ. lia.
Qed.

(** X6.  The number of rounds the search needs is bounded by the size of the
    board: from a pawn square on the board with a goal in reach, it comes
    back with [True] within [5 * width * height + 2] rounds of the [while]
    loop. *)
Theorem search_rounds_bounded b player fuel :
  in_bounds b (pawn player) →
  reachable b (pawn player) (goals player) →
  (5 * (Z.to_nat (width b) * Z.to_nat (height b)) + 2 ≤ fuel)%nat →
  _can_player_reach_goal fuel b player = Ret true.
Proof.
  intros Hb Hr Hfuel. unfold _can_player_reach_goal.
  apply (bfs_loop_complete b (goals player) (pawn player));
    [by apply bfs_inv_init|done|].
  unfold bfs_measure. simpl. pose proof (all_squares_size b).
  assert (size (all_squares b ∖ ∅) ≤ size (all_squares b))%nat; [|lia].
  apply subseteq_size. intros sq [? _]%elem_of_difference. done.
Qed.

Lemma search_rounds_bounded_witness :
  let b := board row_nearly_closed in
  let player := mkPlayer 10 (Coord 4 0) (get_row b 8) in
  _can_player_reach_goal 407 b player = Ret true.
Proof.
  assert (in_bounds (board row_nearly_closed) (Coord 4 0)) as Hb.
  { unfold in_bounds. simpl. lia. }
  apply (search_rounds_bounded (board row_nearly_closed)
           (mkPlayer 10 (Coord 4 0) (get_row (board row_nearly_closed) 8))
           407 Hb).
  - apply (search_succeeds_iff _ _ _ Hb). exists 30%nat. vm_compute.
    reflexivity.
  - vm_compute. lia.
Defined.

(** ** Writing and reading fence flags *)

(** X7.  On a board as [Board.__init__] builds it, placing a fence on a
    square of the board sets the flag of that orientation on that square and
    nothing else: every square of the board reads its other flag as before,
    and every other square reads both flags as before. *)
Theorem placing_a_fence_sets_one_flag b sq sq' :
  Board_wf b → in_bounds b sq → in_bounds b sq' →
  (has_horizontal_fence (place_horizontal_fence b sq) sq'
   = has_horizontal_fence b sq' || bool_decide (sq' = sq)
   ∧ has_vertical_fence (place_horizontal_fence b sq) sq'
     = has_vertical_fence b sq')
  ∧ (has_vertical_fence (place_vertical_fence b sq) sq'
     = has_vertical_fence b sq' || bool_decide (sq' = sq)
     ∧ has_horizontal_fence (place_vertical_fence b sq) sq'
       = has_horizontal_fence b sq').
Proof.
  intros Hwf Hsq Hsq'. split_and!.
  - by apply has_horizontal_fence_place_horizontal.
  - by apply has_vertical_fence_place_horizontal.
  - by apply has_vertical_fence_place_vertical.
  - by apply has_horizontal_fence_place_vertical.
Qed.

Lemma placing_a_fence_sets_one_flag_witness :
  let b := Board_init 9 9 in
  let e5 := Coord 4 4 in
  let d5 := Coord 3 4 in
  has_horizontal_fence (place_horizontal_fence b e5) e5 = true
  ∧ has_horizontal_fence (place_horizontal_fence b e5) d5 = false
  ∧ has_vertical_fence (place_horizontal_fence b e5) e5 = false.
Proof.
  assert (Board_wf (Board_init 9 9)) as Hwf.
  { split; [reflexivity|]. repeat constructor. }
  assert (in_bounds (Board_init 9 9) (Coord 4 4)) as He.
  { unfold in_bounds. simpl. lia. }
  assert (in_bounds (Board_init 9 9) (Coord 3 4)) as Hd.
  { unfold in_bounds. simpl. lia. }
  pose proof (placing_a_fence_sets_one_flag _ _ _ Hwf He He) as [[H1 H2] _].
  pose proof (placing_a_fence_sets_one_flag _ _ _ Hwf He Hd) as [[H3 _] _].
  split; [exact H1|]. split; [exact H3|exact H2].
Defined.

Lemma update_square_twice f b sq :
  (∀ s, f (f s) = f s) →
  update_square f (update_square f b sq) sq = update_square f b sq.
Proof.
  intros Hf. unfold update_square. simpl. f_equal.
  rewrite list_alter_alter_eq. apply list_alter_ext; [|done].
  intros row _. simpl. rewrite list_alter_alter_eq.
  apply list_alter_ext; [|done]. intros s _. apply Hf.
Qed.

Lemma update_square_swap f f' b sq sq' :
  (∀ s, f (f' s) = f' (f s)) →
  update_square f (update_square f' b sq') sq
  = update_square f' (update_square f b sq) sq'.
Proof.
  intros Hf. unfold update_square. simpl. f_equal.
  rewrite list_alter_alter. case_decide as Hy; [|done].
  rewrite Hy, list_alter_alter_eq. apply list_alter_ext; [|done].
  intros row _. simpl. rewrite list_alter_alter. case_decide as Hx; [|done].
  rewrite Hx, list_alter_alter_eq. apply list_alter_ext; [|done].
  intros s _. apply Hf.
Qed.

(** X8.  The board that results from placing fences does not depend on
    their order, and placing the same fence twice gives the board of placing
    it once. *)
Theorem fence_placements_commute b sq sq' :
  place_horizontal_fence (place_horizontal_fence b sq') sq
  = place_horizontal_fence (place_horizontal_fence b sq) sq'
  ∧ place_vertical_fence (place_vertical_fence b sq') sq
    = place_vertical_fence (place_vertical_fence b sq) sq'
  ∧ place_horizontal_fence (place_vertical_fence b sq') sq
    = place_vertical_fence (place_horizontal_fence b sq) sq'
  ∧ place_horizontal_fence (place_horizontal_fence b sq) sq
    = place_horizontal_fence b sq
  ∧ place_vertical_fence (place_vertical_fence b sq) sq
    = place_vertical_fence b sq.
Proof.
  unfold place_horizontal_fence, place_vertical_fence. split_and!;
    (by apply update_square_swap) || (by apply update_square_twice).
Qed.

(** ** Reading a move string *)

Lemma getitem_wraps_helper b c0 c1 rest sq :
  Board_wf b →
  Board_getitem b (String c0 (String c1 rest)) = Ret sq ↔
  ∃ v, int_of_char c1 = Ret v
       ∧ - height b ≤ v - 1 < height b
       ∧ - width b ≤ ord c0 - ord "a" < width b
       ∧ sq = Coord ((ord c0 - ord "a") `mod` width b)
                ((v - 1) `mod` height b).
Proof.
  intros Hwf. rewrite Board_getitem_Ret by done.
  assert (∀ n i k, 0 ≤ k →
            list_index (Z.to_nat n) i = Ret (Z.to_nat k) ↔
            - n ≤ i < n ∧ k = i `mod` n) as Hidx.
  { intros n i k Hk. rewrite list_index_Ret. split.
    - intros [[? ?]|[? ?]].
      + split; [lia|]. rewrite Z.mod_small; lia.
      + split; [lia|]. apply (Z.mod_unique_pos _ _ (-1)); lia.
    - intros [? ->]. destruct (decide (0 ≤ i)).
      + left. rewrite Z.mod_small; lia.
      + right. split; [lia|]. f_equal.
        symmetry. apply (Z.mod_unique_pos _ _ (-1)); lia. }
  split.
  - intros (v & Hv & Hy & Hx & ? & ?). exists v.
    apply Hidx in Hy as [? Hy]; [|done]. apply Hidx in Hx as [? Hx]; [|done].
    split_and!; try done; try lia. destruct sq; simpl in *. by subst.
  - intros (v & Hv & ? & ? & ->). exists v. simpl.
    assert (0 ≤ (ord c0 - ord "a") `mod` width b) by (apply Z.mod_pos_bound; lia).
    assert (0 ≤ (v - 1) `mod` height b) by (apply Z.mod_pos_bound; lia).
    split_and!; try done; by apply Hidx.
Qed.

(** X9.  On a board as [Board.__init__] builds it, a coordinate of two
    characters is accepted exactly when the second is a digit [v] with
    [-height <= v - 1 < height] and the first is at a distance [col] from
    [a] with [-width <= col < width]; the square found is the one at column
    [col mod width] and row [(v - 1) mod height], so that an index below
    zero is read from the far end of the table. *)
Theorem getitem_accepts_and_wraps b c0 c1 rest sq :
  Board_wf b →
  Board_getitem b (String c0 (String c1 rest)) = Ret sq ↔
  ∃ v, int_of_char c1 = Ret v
       ∧ - height b ≤ v - 1 < height b
       ∧ - width b ≤ ord c0 - ord "a" < width b
       ∧ sq = Coord ((ord c0 - ord "a") `mod` width b)
                ((v - 1) `mod` height b).
Proof. apply getitem_wraps_helper. Qed.

Lemma getitem_accepts_and_wraps_witness :
  Board_getitem (Board_init 9 9) "e0" = Ret (Coord 4 8).
Proof.
  apply (getitem_accepts_and_wraps (Board_init 9 9) "e" "0" ""%string).
  - split; [reflexivity|]. repeat constructor.
  - exists 0. split; [reflexivity|]. split; [simpl; lia|].
    split; [by vm_compute|reflexivity].
Defined.

Lemma parsed_move_is_on_the_board_helper g s m :
  Board_wf (board g) → Move_parse g s = Ret m →
  in_bounds (board g) (Move_square m).
Proof.
  intros Hwf. unfold Move_parse.
  destruct (Board_getitem (board g) (substring 0 2 s)) as [sq| |] eqn:E;
    simpl; [|done|done].
  assert (in_bounds (board g) sq) as Hsq.
  { destruct (substring 0 2 s) as [|c0 [|c1 rest]]; try done.
    apply getitem_wraps_helper in E as (v & _ & ? & ? & ->); [|done].
    split; simpl; apply Z.mod_pos_bound; lia. }
  destruct (String.length s <? 3)%nat; [by intros [= <-]|].
  destruct (String.get 2 s) as [c|]; [|done].
  destruct c as [[] [] [] [] [] [] [] []]; try done; by intros [= <-].
Qed.

(** X10.  On a board as [Board.__init__] builds it, a move that [Move.parse]
    returns is on a square of the board. *)
Theorem parsed_move_is_on_the_board g s m :
  Board_wf (board g) → Move_parse g s = Ret m →
  in_bounds (board g) (Move_square m).
Proof. apply parsed_move_is_on_the_board_helper. Qed.

Lemma parsed_move_is_on_the_board_witness :
  in_bounds (board Game_start) (Move_square (Move_MovePawn (Coord 4 8))).
Proof.
  apply (parsed_move_is_on_the_board Game_start "e0").
  - split; [reflexivity|]. repeat constructor.
  - vm_compute. reflexivity.
Defined.

Lemma Move_parse_comes_back g s : Move_parse g s ≠ OutOfFuel.
Proof.
  unfold Move_parse, Board_getitem, int_of_char, list_index, bind.
  repeat case_match; done.
Qed.

(** X11.  A string whose third character is neither [h] nor [v] is never
    parsed into a move: the call raises. *)
Theorem parse_rejects_unknown_kind g s c :
  String.get 2 s = Some c → c ≠ "h"%char → c ≠ "v"%char →
  ∃ e, Move_parse g s = Raise e.
Proof.
  intros Hget Hh Hv.
  pose proof (parse_rejects_other_suffix g s c Hget Hh Hv) as Hn.
  pose proof (Move_parse_comes_back g s) as Hc.
  destruct (Move_parse g s) as [m|e|]; [by destruct (Hn m)|by exists e|done].
Qed.

Lemma parse_rejects_unknown_kind_witness :
  ∃ e, Move_parse Game_start "e2x" = Raise e.
Proof.
  apply (parse_rejects_unknown_kind Game_start "e2x" "x"); [reflexivity|..];
    discriminate.
Defined.

Lemma substring_app_short (s t : string) (n : nat) :
  (n ≤ String.length s)%nat → substring 0 n (s ++ t) = substring 0 n s.
Proof.
  revert n. induction s as [|c s IH]; intros [|n] Hn; simpl in *;
    try done; try lia.
  - by destruct t.
  - f_equal. apply IH. lia.
Qed.

Lemma get_app_short (s t : string) (n : nat) :
  (n < String.length s)%nat → String.get n (s ++ t) = String.get n s.
Proof.
  revert n. induction s as [|c s IH]; intros [|n] Hn; simpl in *;
    try done; try lia.
  apply IH. lia.
Qed.

Lemma length_app_string (s t : string) :
  String.length (s ++ t) = (String.length s + String.length t)%nat.
Proof. induction s as [|c s IH]; simpl; [done|by rewrite IH]. Qed.

(** X12.  Only the first three characters of a move string are read: what
    follows them changes nothing, be it the result or the error. *)
Theorem parse_ignores_what_follows g s t :
  (3 ≤ String.length s)%nat →
  Move_parse g (s ++ t) = Move_parse g s.
Proof.
  intros Hs. unfold Move_parse.
  rewrite substring_app_short by lia. rewrite get_app_short by lia.
  assert ((String.length (s ++ t) <? 3)%nat = false) as ->.
  { apply Nat.ltb_ge. rewrite length_app_string. lia. }
  assert ((String.length s <? 3)%nat = false) as ->; [|done].
  by apply Nat.ltb_ge.
Qed.

Lemma parse_ignores_what_follows_witness :
  Move_parse Game_start ("e3h" ++ "z")
  = Ret (Move_PlaceFenceHorizontally (Coord 4 2)).
Proof.
  rewrite (parse_ignores_what_follows Game_start "e3h" "z");
    [reflexivity|simpl; lia].
Defined.

(** X13.  A string of fewer than two characters raises [IndexError]. *)
Theorem parse_needs_two_characters g s :
  (String.length s < 2)%nat → Move_parse g s = Raise IndexError.
Proof.
  destruct s as [|c0 [|c1 s]]; simpl; intros Hs; try done; lia.
Qed.

Lemma parse_needs_two_characters_witness :
  Move_parse Game_start "e" = Raise IndexError.
Proof. apply parse_needs_two_characters. simpl. lia. Defined.

(** ** Printing and reading back *)

Lemma ord_chr i c : chr i = Ret c → ord c = i.
Proof.
  unfold chr, ord. case_match eqn:E; [|done]. intros [= <-].
  apply andb_prop in E as [?%Z.leb_le ?%Z.ltb_lt].
  rewrite nat_ascii_embedding; lia.
Qed.

Lemma row_name_digit sq :
  0 ≤ y sq < 9 →
  ∃ d, row_name sq = String d "" ∧ int_of_char d = Ret (1 + y sq).
Proof.
  destruct sq as [col row]. unfold row_name. cbn [y]. intros Hrow.
  assert (row = 0 ∨ row = 1 ∨ row = 2 ∨ row = 3 ∨ row = 4 ∨ row = 5
          ∨ row = 6 ∨ row = 7 ∨ row = 8) as Hcases by lia.
  repeat destruct Hcases as [->|Hcases]; [..|subst row];
    eexists; (split; [reflexivity|reflexivity]).
Qed.

(** X14.  On a board as [Board.__init__] builds it, with at most 26 columns
    and 9 rows, the text [str] gives for a square of the board is read back
    as that square: alone it parses to the pawn move to the square, and
    followed by [h] or [v] to the fence anchored at it. *)
Theorem printed_square_reads_back g sq :
  Board_wf (board g) → in_bounds (board g) sq →
  width (board g) ≤ 26 → height (board g) ≤ 9 →
  ∃ s, Coordinate_str sq = Ret s
       ∧ Board_getitem (board g) s = Ret sq
       ∧ Move_parse g s = Ret (Move_MovePawn sq)
       ∧ Move_parse g (s ++ "h") = Ret (Move_PlaceFenceHorizontally sq)
       ∧ Move_parse g (s ++ "v") = Ret (Move_PlaceFenceVertically sq).
Proof.
  intros Hwf [Hx Hy] Hw Hh.
  destruct (row_name_digit sq) as (d & Hd & Hv); [lia|].
  destruct (chr (ord "a" + x sq)) as [c| |] eqn:Hc.
  2,3: revert Hc; unfold chr;
       replace ((0 <=? ord "a" + x sq) && (ord "a" + x sq <? 256)) with true;
       [done|symmetry; apply andb_true_intro; change (ord "a") with 97;
             split; [apply Z.leb_le|apply Z.ltb_lt]; lia].
  assert (Board_getitem (board g) (String c (String d "")) = Ret sq) as Hget.
  { apply getitem_wraps_helper; [done|]. exists (1 + y sq).
    rewrite (ord_chr _ _ Hc).
    replace (ord "a" + x sq - ord "a") with (x sq) by lia.
    replace (1 + y sq - 1) with (y sq) by lia.
    split_and!; try done; try lia.
    rewrite !Z.mod_small by lia. by destruct sq. }
  exists (String c (String d "")). split_and!.
  - unfold Coordinate_str, column_name. rewrite Hc. simpl. by rewrite Hd.
  - done.
  - unfold Move_parse. simpl substring. by rewrite Hget.
  - unfold Move_parse. simpl substring. by rewrite Hget.
  - unfold Move_parse. simpl substring. by rewrite Hget.
Qed.

Lemma printed_square_reads_back_witness :
  ∃ s, Coordinate_str (Coord 4 8) = Ret s
       ∧ Board_getitem (board Game_start) s = Ret (Coord 4 8)
       ∧ Move_parse Game_start s = Ret (Move_MovePawn (Coord 4 8))
       ∧ Move_parse Game_start (s ++ "h")
         = Ret (Move_PlaceFenceHorizontally (Coord 4 8))
       ∧ Move_parse Game_start (s ++ "v")
         = Ret (Move_PlaceFenceVertically (Coord 4 8)).
Proof.
  apply (printed_square_reads_back Game_start (Coord 4 8)).
  - split; [reflexivity|]. repeat constructor.
  - unfold in_bounds. simpl. lia.
  - simpl. lia.
  - simpl. lia.
Defined.

(** The bound on the rows is needed: on a board of 10 rows the square a10
    prints as a10, which [Move.parse] refuses for its third character. *)
Lemma printed_square_tenth_row :
  Coordinate_str (Coord 0 9) = Ret "a10"%string
  ∧ Move_parse (mkGame (Board_init 9 10) [] (Some 1) true) "a10"
    = Raise ValueError.
Proof. split; vm_compute; reflexivity. Qed.

(** ** Destinations of a pawn *)

Lemma elem_of_moves_toward g square_0 point target :
  target ∈ moves_toward g square_0 point ↔
  is_connected_with_square_at (board g) square_0 point = true
  ∧ (has_pawn g (shift square_0 point) = false
     ∧ target = shift square_0 point
     ∨ has_pawn g (shift square_0 point) = true
       ∧ is_connected_with_square_at (board g) (shift square_0 point) point
         = true
       ∧ target = shift (shift square_0 point) point
     ∨ has_pawn g (shift square_0 point) = true
       ∧ is_connected_with_square_at (board g) (shift square_0 point) point
         = false
       ∧ ∃ orthogonal_point,
           orthogonal_point ∈ orthogonal_points point
           ∧ is_connected_with_square_at (board g) (shift square_0 point)
               orthogonal_point = true
           ∧ target = shift (shift square_0 point) orthogonal_point).
Proof.
  assert (∀ sq p, is_connected_with_square_at (board g) sq p = true →
                  square_at (board g) sq p = Some (shift sq p)) as Hat.
  { intros sq p [? _]%is_connected_spec. by apply square_at_Some. }
  unfold moves_toward.
  destruct (is_connected_with_square_at (board g) square_0 point) eqn:E0;
    simpl; [|rewrite elem_of_empty; naive_solver].
  rewrite (Hat _ _ E0).
  destruct (has_pawn g (shift square_0 point)) eqn:Ep.
  - destruct (is_connected_with_square_at (board g) (shift square_0 point)
                point) eqn:E1.
    + rewrite (Hat _ _ E1). simpl. rewrite elem_of_union, elem_of_singleton.
      rewrite elem_of_empty. naive_solver.
    + rewrite elem_of_list_to_set, list_elem_of_In, in_flat_map. split.
      * intros (o & Ho%list_elem_of_In & Hin). split; [done|]. right. right.
        split_and!; try done. exists o.
        destruct (is_connected_with_square_at _ _ o) eqn:E2; [|done].
        rewrite (Hat _ _ E2) in Hin. simpl in Hin. naive_solver.
      * intros [_ [[? _]|[(_ & ? & _)|(_ & _ & o & Ho & E2 & ->)]]];
          try done.
        exists o. split; [by apply list_elem_of_In|].
        rewrite E2, (Hat _ _ E2). by left.
  - rewrite elem_of_singleton. naive_solver.
Qed.

Lemma possible_moves_cases g square_0 target :
  target ∈ possible_moves g square_0 ↔
  ∃ point,
    is_connected_with_square_at (board g) square_0 point = true
    ∧ (has_pawn g (shift square_0 point) = false
       ∧ target = shift square_0 point
       ∨ has_pawn g (shift square_0 point) = true
         ∧ is_connected_with_square_at (board g) (shift square_0 point) point
           = true
         ∧ target = shift (shift square_0 point) point
       ∨ has_pawn g (shift square_0 point) = true
         ∧ is_connected_with_square_at (board g) (shift square_0 point) point
           = false
         ∧ ∃ orthogonal_point,
             orthogonal_point ∈ orthogonal_points point
             ∧ is_connected_with_square_at (board g) (shift square_0 point)
                 orthogonal_point = true
             ∧ target = shift (shift square_0 point) orthogonal_point).
Proof.
  rewrite elem_of_possible_moves.
  split; intros [point H]; exists point; by apply elem_of_moves_toward.
Qed.

(** X15.  The destinations of a pawn are exactly these.  For each direction
    whose edge from the pawn's square is open: the neighbour, when it holds
    no pawn; the square beyond the neighbour, when the neighbour holds a
    pawn and its edge onward is open; and, when the neighbour holds a pawn
    and has no open edge onward, the squares beside the neighbour that it
    has an open edge to. *)
Theorem pawn_destinations g square_0 target :
  target ∈ possible_moves g square_0 ↔
  ∃ point,
    is_connected_with_square_at (board g) square_0 point = true
    ∧ (has_pawn g (shift square_0 point) = false
       ∧ target = shift square_0 point
       ∨ has_pawn g (shift square_0 point) = true
         ∧ is_connected_with_square_at (board g) (shift square_0 point) point
           = true
         ∧ target = shift (shift square_0 point) point
       ∨ has_pawn g (shift square_0 point) = true
         ∧ is_connected_with_square_at (board g) (shift square_0 point) point
           = false
         ∧ ∃ orthogonal_point,
             orthogonal_point ∈ orthogonal_points point
             ∧ is_connected_with_square_at (board g) (shift square_0 point)
                 orthogonal_point = true
             ∧ target = shift (shift square_0 point) orthogonal_point).
Proof. apply possible_moves_cases. Qed.

Lemma shift_ne sq point : shift sq point ≠ sq.
Proof. destruct sq, point; simpl; rewrite Coord_eq_iff; lia. Qed.

Lemma shift_shift_ne sq point point' :
  point' ≠ opposite point → shift (shift sq point) point' ≠ sq.
Proof.
  destruct sq, point, point'; simpl; rewrite Coord_eq_iff; intros; try done;
    lia.
Qed.

Lemma orthogonal_not_opposite point orthogonal_point :
  orthogonal_point ∈ orthogonal_points point →
  orthogonal_point ≠ opposite point.
Proof.
  destruct point; simpl;
    intros [->|[->|[]%elem_of_nil]%elem_of_cons]%elem_of_cons; done.
Qed.

(** X16.  A pawn move that [check_valid] accepts goes to a square of the
    board other than the one the pawn stands on, one step away or two. *)
Theorem valid_pawn_move_target g player target :
  current_player g = Ret player →
  Move_MovePawn_check_valid g target = Ret true →
  in_bounds (board g) target
  ∧ target ≠ pawn player
  ∧ ∃ point, target = shift (pawn player) point
             ∨ ∃ point', target = shift (shift (pawn player) point) point'.
Proof.
  intros Hcur. unfold Move_MovePawn_check_valid. rewrite Hcur. simpl.
  intros [= Hin%bool_decide_eq_true].
  apply possible_moves_cases in Hin as (point & E0 & Hcases).
  apply is_connected_spec in E0 as [Hb0 _].
  destruct Hcases as [[_ ->]|[(_ & E1 & ->)|(_ & _ & o & Ho & E2 & ->)]].
  - split_and!; [done|apply shift_ne|]. exists point. by left.
  - apply is_connected_spec in E1 as [Hb1 _]. split_and!; [done| |].
    + apply shift_shift_ne. by destruct point.
    + exists point. right. by exists point.
  - apply is_connected_spec in E2 as [Hb2 _]. split_and!; [done| |].
    + by apply shift_shift_ne, orthogonal_not_opposite.
    + exists point. right. by exists o.
Qed.

Lemma valid_pawn_move_target_witness :
  let e6 := Coord 4 5 in
  in_bounds (board jump_open) e6
  ∧ e6 ≠ Coord 4 3
  ∧ ∃ point, e6 = shift (Coord 4 3) point
             ∨ ∃ point', e6 = shift (shift (Coord 4 3) point) point'.
Proof.
  apply (valid_pawn_move_target jump_open
           (mkPlayer 10 (Coord 4 3) (get_row (Board_init 9 9) 8))
           (Coord 4 5)); reflexivity.
Defined.

(** X17.  With no pawn on any neighbouring square, the destinations of a
    pawn are the squares [cardinal_neighbors] yields for its square. *)
Theorem free_neighbors_are_the_moves g square_0 :
  (∀ point, has_pawn g (shift square_0 point) = false) →
  possible_moves g square_0 = list_to_set (cardinal_neighbors (board g) square_0).
Proof.
  intros Hfree. apply leibniz_equiv. intros target.
  rewrite possible_moves_cases, elem_of_list_to_set, elem_of_cardinal_neighbors.
  split.
  - intros (point & E0 & Hcases). exists point. split; [done|].
    apply is_connected_spec in E0 as [? _]. apply square_at_Some.
    rewrite Hfree in Hcases. naive_solver.
  - intros (point & E0 & [-> _]%square_at_Some). exists point.
    split; [done|]. left. by rewrite Hfree.
Qed.

Lemma free_neighbors_are_the_moves_witness :
  possible_moves Game_start (Coord 4 0)
  = list_to_set (cardinal_neighbors (board Game_start) (Coord 4 0)).
Proof.
  apply (free_neighbors_are_the_moves Game_start (Coord 4 0)).
  intros []; reflexivity.
Defined.

Lemma has_pawn_true g sq :
  has_pawn g sq = true ↔ ∃ player, player ∈ players g ∧ pawn player = sq.
Proof.
  unfold has_pawn. rewrite existsb_exists. split.
  - intros (player & Hin%list_elem_of_In & Heq%bool_decide_eq_true).
    by exists player.
  - intros (player & Hin & Heq). exists player.
    split; [by apply list_elem_of_In|by apply bool_decide_eq_true].
Qed.

(** ** Straight jumps *)

Lemma shift_inj sq point point' :
  shift sq point = shift sq point' → point = point'.
Proof.
  destruct sq, point, point'; simpl; rewrite Coord_eq_iff; intros [? ?];
    try done; lia.
Qed.

Lemma shift_diagonal_ne sq point orthogonal_point point' :
  orthogonal_point ∈ orthogonal_points point →
  shift (shift sq point) orthogonal_point ≠ shift sq point'.
Proof.
  destruct sq, point; simpl;
    intros [->|[->|[]%elem_of_nil]%elem_of_cons]%elem_of_cons;
    destruct point'; simpl; rewrite Coord_eq_iff; lia.
Qed.

Lemma current_player_elem_of g player :
  current_player g = Ret player → player ∈ players g.
Proof.
  unfold current_player. destruct (current_index g) as [index| |]; simpl;
    [|done|done].
  destruct (players g !! index) as [q|] eqn:E; [|done]. intros [= <-].
  by eapply list_elem_of_lookup_2.
Qed.

(** In a game of two players, the only pawn beside the one to move is the
    other one: a square that holds a pawn and is not the mover's square is
    the neighbour that was found to hold a pawn. *)
Lemma two_players_one_other_pawn g p0 p1 player neighbor sq :
  players g = [p0; p1] → current_player g = Ret player →
  has_pawn g neighbor = true → neighbor ≠ pawn player →
  has_pawn g sq = true → sq ≠ pawn player → sq = neighbor.
Proof.
  intros Hps Hcur Hn Hne Hsq Hne'.
  apply current_player_elem_of in Hcur. rewrite Hps in Hcur.
  apply has_pawn_true in Hn as (q & Hq & <-).
  apply has_pawn_true in Hsq as (q' & Hq' & <-).
  rewrite Hps in Hq, Hq'. set_unfold. naive_solver.
Qed.

(** C4.  When the edge from the mover's square toward a direction is open,
    the neighbour in that direction holds a pawn, and the edge from the
    neighbour onward in the same direction is open and leads to a square F
    of the board, then that direction adds F and nothing else to the set of
    destinations, and F is a valid pawn move; and in a game of two players,
    as [_setup] makes it, no square beside the neighbour is a destination
    at all: [check_valid] answers [False] for each of them. *)
Theorem straight_jump_exclusive g player point square_1 square_2 :
  current_player g = Ret player →
  is_connected_with_square_at (board g) (pawn player) point = true →
  square_at (board g) (pawn player) point = Some square_1 →
  has_pawn g square_1 = true →
  is_connected_with_square_at (board g) square_1 point = true →
  square_at (board g) square_1 point = Some square_2 →
  moves_toward g (pawn player) point = {[square_2]}
  ∧ Move_MovePawn_check_valid g square_2 = Ret true
  ∧ (∀ orthogonal_point diagonal,
       orthogonal_point ∈ orthogonal_points point →
       square_at (board g) square_1 orthogonal_point = Some diagonal →
       diagonal ∉ moves_toward g (pawn player) point)
  ∧ (∀ p0 p1, players g = [p0; p1] →
     ∀ orthogonal_point diagonal,
       orthogonal_point ∈ orthogonal_points point →
       square_at (board g) square_1 orthogonal_point = Some diagonal →
       diagonal ∉ possible_moves g (pawn player)
       ∧ Move_MovePawn_check_valid g diagonal = Ret false).
Proof.
  intros Hcur H0 H1 Hp H2 H3.
  pose proof (moves_toward_straight g _ _ _ _ H0 H1 Hp H2 H3) as Hset.
  split_and!; [done| | |].
  - unfold Move_MovePawn_check_valid. rewrite Hcur. simpl. f_equal.
    apply bool_decide_eq_true_2, elem_of_possible_moves.
    exists point. rewrite Hset. by apply elem_of_singleton.
  - intros orthogonal_point diagonal Ho Hd. rewrite Hset.
    rewrite elem_of_singleton.
    apply square_at_Some in Hd as [-> _]. apply square_at_Some in H3 as [-> _].
    by apply shift_orthogonal_ne.
  - intros p0 p1 Hps orthogonal_point diagonal Ho Hd.
    apply square_at_Some in H1 as [-> _]. apply square_at_Some in Hd as [-> _].
    assert (shift (shift (pawn player) point) orthogonal_point
            ∉ possible_moves g (pawn player)) as Hout.
    { intros (point' & _ & Hcases)%possible_moves_cases.
      assert (has_pawn g (shift (pawn player) point') = true →
              point' = point) as Hsame.
      { intros Hp'. apply (shift_inj (pawn player)).
        apply (two_players_one_other_pawn g p0 p1 player); try done;
          apply shift_ne. }
      destruct Hcases as [[_ Heq]|[(Hp' & _ & Heq)|(Hp' & Hc & _)]].
      - by apply shift_diagonal_ne in Heq.
      - rewrite (Hsame Hp') in Heq. by apply shift_orthogonal_ne in Heq.
      - rewrite (Hsame Hp') in Hc. congruence. }
    split; [done|].
    unfold Move_MovePawn_check_valid. rewrite Hcur. simpl. f_equal.
    by apply bool_decide_eq_false_2.
Qed.

Lemma straight_jump_exclusive_witness :
  let g := jump_open in
  let e4 := Coord 4 3 in
  let e5 := Coord 4 4 in
  let e6 := Coord 4 5 in
  moves_toward g e4 SOUTH = {[e6]}
  ∧ Move_MovePawn_check_valid g e6 = Ret true
  ∧ Move_MovePawn_check_valid g (Coord 3 4) = Ret false
  ∧ Move_MovePawn_check_valid g (Coord 5 4) = Ret false.
Proof.
  pose proof (straight_jump_exclusive jump_open
                (mkPlayer 10 (Coord 4 3) (get_row (Board_init 9 9) 8))
                SOUTH (Coord 4 4) (Coord 4 5)
                eq_refl eq_refl eq_refl eq_refl eq_refl eq_refl)
    as (Hset & Hvalid & _ & Htwo).
  split; [exact Hset|]. split; [exact Hvalid|].
  split.
  - apply (Htwo _ _ eq_refl WEST (Coord 3 4)); [|reflexivity].
    apply elem_of_cons. by left.
  - apply (Htwo _ _ eq_refl EAST (Coord 5 4)); [|reflexivity].
    apply elem_of_cons. right. apply elem_of_cons. by left.
Defined.

(** X18.  In a game of two players whose pawns stand on different squares,
    a pawn move that [check_valid] accepts leaves them on different squares
    once applied. *)
Theorem two_pawns_stay_apart g p0 p1 target g' :
  players g = [p0; p1] → pawn p0 ≠ pawn p1 →
  Move_MovePawn_check_valid g target = Ret true →
  apply g (Move_MovePawn target) = Ret g' →
  ∃ q0 q1, players g' = [q0; q1] ∧ pawn q0 ≠ pawn q1.
Proof.
  intros Hps Hne Hvalid Happly.
  assert (∀ mover other, mover ∈ players g → other ∈ players g →
            pawn mover ≠ pawn other → target ∈ possible_moves g (pawn mover) →
            target ≠ pawn other) as Hfree.
  { intros mover other Hm Ho Hmo Hin Heq.
    assert (∀ sq, has_pawn g sq = true → sq = pawn mover ∨ sq = pawn other)
      as Htwo.
    { intros sq (q & Hq & <-)%has_pawn_true. rewrite Hps in Hq, Hm, Ho.
      set_unfold. naive_solver. }
    apply possible_moves_cases in Hin as (point & _ & Hcases).
    destruct Hcases as [[Hp ->]|[(Hp & _ & ->)|(Hp & _ & o & _ & _ & ->)]].
    - assert (has_pawn g (shift (pawn mover) point) = true); [|congruence].
      apply has_pawn_true. by exists other.
    - destruct (Htwo _ Hp) as [H|H]; [by apply shift_ne in H|].
      rewrite <- H in Heq. by apply shift_ne in Heq.
    - destruct (Htwo _ Hp) as [H|H]; [by apply shift_ne in H|].
      rewrite <- H in Heq. by apply shift_ne in Heq. }
  revert Hvalid Happly. unfold Move_MovePawn_check_valid, current_player.
  simpl. unfold current_index. rewrite Hps.
  destruct (turn g) as [t|]; [|done]. simpl.
  change (Z.of_nat 2) with 2.
  pose proof (Z.mod_pos_bound t 2 eq_refl) as Hmod.
  assert (Z.to_nat (t `mod` 2) = 0 ∨ Z.to_nat (t `mod` 2) = 1)%nat
    as [-> | ->] by lia; simpl;
    intros [= Hin%bool_decide_eq_true] [= <-]; simpl; eexists _, _;
    (split; [reflexivity|]); simpl.
  - apply (Hfree p0 p1); rewrite ?Hps; set_solver.
  - intros Heq. symmetry in Heq. revert Heq.
    apply (Hfree p1 p0); rewrite ?Hps; set_solver.
Qed.

Lemma two_pawns_stay_apart_witness :
  ∃ q0 q1,
    players (mkGame (board jump_open)
               [mkPlayer 10 (Coord 4 5) (get_row (Board_init 9 9) 8);
                mkPlayer 10 (Coord 4 4) (get_row (Board_init 9 9) 0)]
               (Some 8) true) = [q0; q1]
    ∧ pawn q0 ≠ pawn q1.
Proof.
  apply (two_pawns_stay_apart jump_open
           (mkPlayer 10 (Coord 4 3) (get_row (Board_init 9 9) 8))
           (mkPlayer 10 (Coord 4 4) (get_row (Board_init 9 9) 0))
           (Coord 4 5)); try reflexivity.
  simpl. rewrite Coord_eq_iff. lia.
Defined.

(** X19.  Applying a pawn move puts the pawn of the player to move on the
    target square and changes nothing else: the board, the turn counter and
    every other player stay as they were, and so do the goals and the fence
    count of the mover. *)
Theorem pawn_move_moves_the_mover g index target g' :
  current_index g = Ret index →
  apply g (Move_MovePawn target) = Ret g' →
  board g' = board g ∧ turn g' = turn g ∧ is_ingame g' = is_ingame g
  ∧ (∀ player, players g !! index = Some player →
       players g' !! index = Some (set_pawn player target))
  ∧ (∀ i, i ≠ index → players g' !! i = players g !! i).
Proof.
  intros Hidx. simpl. rewrite Hidx. simpl. case_decide; [|done].
  intros [= <-]. simpl. split_and!; try done.
  - intros player Hp. by rewrite list_lookup_alter_eq, Hp.
  - intros i Hi. by rewrite list_lookup_alter_ne.
Qed.

Lemma pawn_move_moves_the_mover_witness :
  let g' := mkGame (board jump_open)
              [mkPlayer 10 (Coord 4 5) (get_row (Board_init 9 9) 8);
               mkPlayer 10 (Coord 4 4) (get_row (Board_init 9 9) 0)]
              (Some 8) true in
  apply jump_open (Move_MovePawn (Coord 4 5)) = Ret g'
  ∧ players g' !! 0%nat
    = Some (mkPlayer 10 (Coord 4 5) (get_row (Board_init 9 9) 8))
  ∧ players g' !! 1%nat = players jump_open !! 1%nat.
Proof.
  intros g'.
  assert (apply jump_open (Move_MovePawn (Coord 4 5)) = Ret g') as Ha
    by reflexivity.
  pose proof (pawn_move_moves_the_mover jump_open 0%nat (Coord 4 5) g'
                eq_refl Ha) as (_ & _ & _ & Hm & Ho).
  split; [exact Ha|]. split; [exact (Hm _ eq_refl)|apply Ho; lia].
Defined.

(** ** When a fence is accepted *)

Lemma every_player_reaches_never_false fuel b ps :
  every_player_reaches fuel b ps ≠ Ret false.
Proof.
  induction ps as [|player rest IH]; simpl; [done|].
  pose proof (bfs_loop_never_false b (goals player) fuel ∅ [pawn player])
    as Hn.
  unfold _can_player_reach_goal.
  destruct (bfs_loop fuel b (goals player) ∅ [pawn player]) as [[]| |];
    simpl; done.
Qed.

Lemma every_player_reaches_sound fuel b ps :
  (∀ player, player ∈ ps → in_bounds b (pawn player)) →
  every_player_reaches fuel b ps = Ret true →
  ∀ player, player ∈ ps → reachable b (pawn player) (goals player).
Proof.
  induction ps as [|p rest IH]; intros Hb; simpl.
  - by intros _ player ?%elem_of_nil.
  - unfold _can_player_reach_goal.
    destruct (bfs_loop fuel b (goals p) ∅ [pawn p]) as [[]| |] eqn:E; simpl;
      try done.
    intros Hrest player [->|Hin]%elem_of_cons.
    + eapply bfs_loop_sound; [|done]. apply bfs_inv_init, Hb. by left.
    + apply IH; [|done|done]. intros q Hq. apply Hb. by right.
Qed.

Lemma fence_false_iff_flag fuel g square :
  (Move_PlaceFenceHorizontally_check_valid fuel g square = Ret false ↔
   has_horizontal_fence (board g) square = true
   ∨ and_then (east_square (board g) square) (has_horizontal_fence (board g))
     = true)
  ∧ (Move_PlaceFenceVertically_check_valid fuel g square = Ret false ↔
     has_vertical_fence (board g) square = true
     ∨ and_then (south_square (board g) square) (has_vertical_fence (board g))
       = true).
Proof.
  pose proof (every_player_reaches_never_false fuel (board g) (players g)).
  unfold Move_PlaceFenceHorizontally_check_valid,
    Move_PlaceFenceVertically_check_valid.
  split.
  - destruct (has_horizontal_fence (board g) square); [naive_solver|].
    destruct (and_then _ _); naive_solver.
  - destruct (has_vertical_fence (board g) square); [naive_solver|].
    destruct (and_then _ _); naive_solver.
Qed.

(** X20.  A fence validator answers [False] only for a flag that is already
    set, on the anchor or on its east (south) neighbour: it never answers
    [False] because a player would have no path. *)
Theorem fence_rejected_only_for_flags fuel g square :
  (Move_PlaceFenceHorizontally_check_valid fuel g square = Ret false ↔
   has_horizontal_fence (board g) square = true
   ∨ and_then (east_square (board g) square) (has_horizontal_fence (board g))
     = true)
  ∧ (Move_PlaceFenceVertically_check_valid fuel g square = Ret false ↔
     has_vertical_fence (board g) square = true
     ∨ and_then (south_square (board g) square) (has_vertical_fence (board g))
       = true).
Proof. apply fence_false_iff_flag. Qed.

(** X21.  With every pawn on the board, a fence is accepted exactly when the
    flag of its orientation is set neither on the anchor nor on its east
    (south) neighbour and every player has a path to a goal square on the
    board as it is before the fence is placed. *)
Theorem fence_accepted_iff g square :
  pawns_on_board g →
  (accepted g (Move_PlaceFenceHorizontally square) ↔
   has_horizontal_fence (board g) square = false
   ∧ and_then (east_square (board g) square) (has_horizontal_fence (board g))
     = false
   ∧ every_player_has_path g)
  ∧ (accepted g (Move_PlaceFenceVertically square) ↔
     has_vertical_fence (board g) square = false
     ∧ and_then (south_square (board g) square) (has_vertical_fence (board g))
       = false
     ∧ every_player_has_path g).
Proof.
  intros Hb. split; split.
  - intros [fuel Hv]. simpl in Hv.
    unfold Move_PlaceFenceHorizontally_check_valid in Hv.
    destruct (has_horizontal_fence (board g) square); [done|].
    destruct (and_then _ _); [done|]. split_and!; try done.
    intros player Hp. by eapply every_player_reaches_sound.
  - intros (H1 & H2 & Hr). by apply horizontal_accepted.
  - intros [fuel Hv]. simpl in Hv.
    unfold Move_PlaceFenceVertically_check_valid in Hv.
    destruct (has_vertical_fence (board g) square); [done|].
    destruct (and_then _ _); [done|]. split_and!; try done.
    intros player Hp. by eapply every_player_reaches_sound.
  - intros (H1 & H2 & Hr). by apply vertical_accepted.
Qed.

Lemma fence_accepted_iff_witness :
  accepted row_nearly_closed (Move_PlaceFenceHorizontally (Coord 8 0))
  ∧ every_player_has_path row_nearly_closed.
Proof.
  assert (accepted row_nearly_closed
            (Move_PlaceFenceHorizontally (Coord 8 0))) as Ha.
  { exists 30%nat. vm_compute. reflexivity. }
  split; [exact Ha|].
  assert (pawns_on_board row_nearly_closed) as Hb.
  { intros player Hp. change (players row_nearly_closed)
      with (players Game_start) in Hp. unfold Game_start in Hp.
    cbn [players] in Hp.
    apply elem_of_cons in Hp as [->|Hp];
      [|apply list_elem_of_singleton in Hp as ->];
      unfold in_bounds; simpl; lia. }
  exact (proj2 (proj2 (proj1 (proj1 (fence_accepted_iff row_nearly_closed
                                       (Coord 8 0) Hb)) Ha))).
Defined.

(** X22.  Once a fence is placed on a square of the board, the same fence
    is refused, and so is the fence of the same orientation anchored on the
    west neighbour (north neighbour, for a vertical fence), whatever the
    players' paths and however many rounds the search is given. *)
Theorem placed_fence_is_refused_again fuel g square :
  Board_wf (board g) → in_bounds (board g) square →
  (let g' := set_board g (place_horizontal_fence (board g) square) in
   Move_PlaceFenceHorizontally_check_valid fuel g' square = Ret false
   ∧ ∀ w, west_square (board g) square = Some w →
          Move_PlaceFenceHorizontally_check_valid fuel g' w = Ret false)
  ∧ (let g' := set_board g (place_vertical_fence (board g) square) in
     Move_PlaceFenceVertically_check_valid fuel g' square = Ret false
     ∧ ∀ n, north_square (board g) square = Some n →
            Move_PlaceFenceVertically_check_valid fuel g' n = Ret false).
Proof.
  intros Hwf Hsq. split; intros g'.
  - assert (has_horizontal_fence (board g') square = true) as Hset.
    { simpl. rewrite has_horizontal_fence_place_horizontal by done.
      rewrite bool_decide_eq_true_2 by done. apply orb_true_r. }
    split.
    + apply fence_false_iff_flag. by left.
    + intros w Hw. apply fence_false_iff_flag. right.
      apply get_Some in Hw as (-> & ? & ?).
      change (east_square (board g') ?c) with (east_square (board g) c).
      unfold east_square. simpl.
      replace (x square - 1 + 1) with (x square) by lia.
      destruct Hsq as [? ?].
      assert (get (board g) (y square) (x square) = Some square) as ->.
      { apply get_Some. by destruct square. }
      done.
  - assert (has_vertical_fence (board g') square = true) as Hset.
    { simpl. rewrite has_vertical_fence_place_vertical by done.
      rewrite bool_decide_eq_true_2 by done. apply orb_true_r. }
    split.
    + apply fence_false_iff_flag. by left.
    + intros n Hn. apply fence_false_iff_flag. right.
      apply get_Some in Hn as (-> & ? & ?).
      change (south_square (board g') ?c) with (south_square (board g) c).
      unfold south_square. simpl.
      replace (y square - 1 + 1) with (y square) by lia.
      destruct Hsq as [? ?].
      assert (get (board g) (y square) (x square) = Some square) as ->.
      { apply get_Some. by destruct square. }
      done.
Qed.

Lemma placed_fence_is_refused_again_witness :
  let g' := set_board Game_start
              (place_horizontal_fence (board Game_start) (Coord 4 4)) in
  Move_PlaceFenceHorizontally_check_valid 0 g' (Coord 4 4) = Ret false
  ∧ Move_PlaceFenceHorizontally_check_valid 0 g' (Coord 3 4) = Ret false.
Proof.
  assert (Board_wf (board Game_start)) as Hwf.
  { split; [reflexivity|]. repeat constructor. }
  assert (in_bounds (board Game_start) (Coord 4 4)) as Hb.
  { unfold in_bounds. simpl. lia. }
  pose proof (placed_fence_is_refused_again 0 Game_start (Coord 4 4) Hwf Hb)
    as [[H1 H2] _].
  split; [exact H1|exact (H2 (Coord 3 4) eq_refl)].
Defined.

(** ** What a call of [Game.move] keeps *)

(** A call that comes back either leaves the game as it was or applied an
    accepted move and ended the turn. *)
Lemma Game_move_cases fuel s g g' :
  Game_move fuel s g = Ret g' →
  g' = g
  ∨ ∃ m ga, Move_parse g s = Ret m ∧ check_valid fuel g m = Ret true
            ∧ apply g m = Ret ga ∧ Game_end_turn ga = Ret g'.
Proof.
  unfold Game_move. destruct (turn g); [|done].
  destruct (Move_parse g s) as [m| |]; simpl; [|done|done].
  rewrite st_check_valid_pure.
  destruct (check_valid fuel g m) as [[]| |] eqn:Ev; simpl; try done.
  - destruct (apply g m) as [ga| |] eqn:Ea; simpl; [|done|done].
    intros He. right. by exists m, ga.
  - unfold Game_start_turn. destruct (current_player g); simpl; try done.
    intros [= <-]. by left.
Qed.

Lemma Game_end_turn_cases g g' :
  Game_end_turn g = Ret g' →
  board g' = board g ∧ players g' = players g
  ∧ ((∃ player, current_player g = Ret player
                ∧ pawn player ∈ goals player)
     ∧ turn g' = turn g ∧ is_ingame g' = false
     ∨ turn g' = (fun t => t + 1) <$> turn g ∧ is_ingame g' = is_ingame g).
Proof.
  unfold Game_end_turn.
  destruct (current_player g) as [player| |] eqn:Ec; simpl; [|done|done].
  case_bool_decide.
  - unfold Game_end. rewrite Ec. simpl. intros [= <-]. simpl.
    split_and!; try done. left. split_and!; try done. by exists player.
  - unfold Game_start_turn.
    destruct (current_player (mkGame _ _ _ _)); simpl; try done.
    intros [= Heq]. subst g'. simpl. split_and!; try done. by right.
Qed.

Lemma apply_cases g m ga :
  apply g m = Ret ga →
  turn ga = turn g ∧ is_ingame ga = is_ingame g
  ∧ (board ga = board g
     ∨ board ga = place_horizontal_fence (board g) (Move_square m)
     ∨ board ga = place_vertical_fence (board g) (Move_square m))
  ∧ (players ga = players g
     ∨ board ga = board g
       ∧ ∃ index, players ga
                  = alter (fun player => set_pawn player (Move_square m))
                      index (players g)).
Proof.
  destruct m as [sq|sq|sq]; simpl.
  - destruct (current_index g) as [index| |]; simpl; [|done|done].
    case_decide; [|done]. intros [= <-]. simpl. split_and!; try done.
    + by left.
    + right. split; [done|]. by exists index.
  - intros [= <-]. simpl. split_and!; try done; [right|]; by left.
  - intros [= <-]. simpl. split_and!; try done; [right; right|left]; done.
Qed.

(** X23.  A call of [Game.move] that comes back never removes a fence and
    never resizes the board: the width and the height are as before, and
    every flag that was set is still set. *)
Theorem walls_are_never_removed fuel s g g' :
  Game_move fuel s g = Ret g' →
  width (board g') = width (board g) ∧ height (board g') = height (board g)
  ∧ ∀ sq,
      (has_horizontal_fence (board g) sq = true →
       has_horizontal_fence (board g') sq = true)
      ∧ (has_vertical_fence (board g) sq = true →
         has_vertical_fence (board g') sq = true).
Proof.
  intros [->|(m & ga & _ & _ & Ha & He)]%Game_move_cases; [done|].
  apply Game_end_turn_cases in He as (-> & _ & _).
  apply apply_cases in Ha as (_ & _ & [->|[->| ->]] & _); [done|..];
    (split_and!; [done|done|]); intros sq; split;
    (apply has_horizontal_fence_update_mono
     || apply has_vertical_fence_update_mono); by intros [].
Qed.

Lemma walls_are_never_removed_witness :
  has_horizontal_fence (board row_closed) (Coord 0 0) = true.
Proof.
  assert (Game_move 100 "i1h" row_nearly_closed
          = Ret (mkGame (board row_closed) (players row_closed) (Some 6) true))
    as Hm by (vm_compute; reflexivity).
  apply (proj1 (proj2 (proj2 (walls_are_never_removed _ _ _ _ Hm))
                  (Coord 0 0))).
  reflexivity.
Defined.

(** X24.  A call of [Game.move] that comes back changes neither the number
    of players nor any player's goals or count of remaining fences: placing
    a fence does not draw on the player's fences. *)
Theorem move_keeps_goals_and_fence_counts fuel s g g' :
  Game_move fuel s g = Ret g' →
  length (players g') = length (players g)
  ∧ goals <$> players g' = goals <$> players g
  ∧ remaining_fences <$> players g' = remaining_fences <$> players g.
Proof.
  intros [->|(m & ga & _ & _ & Ha & He)]%Game_move_cases; [done|].
  apply Game_end_turn_cases in He as (_ & -> & _).
  apply apply_cases in Ha as (_ & _ & _ & [->|(_ & index & ->)]); [done|].
  rewrite length_alter. split_and!; [done|..].
  - rewrite (list_fmap_alter goals _ id), list_alter_id; [done|done|].
    by apply Forall_forall.
  - rewrite (list_fmap_alter remaining_fences _ id), list_alter_id;
      [done|done|]. by apply Forall_forall.
Qed.

Lemma move_keeps_goals_and_fence_counts_witness :
  remaining_fences <$>
    players (mkGame (board row_closed) (players row_closed) (Some 6) true)
  = remaining_fences <$> players row_nearly_closed.
Proof.
  assert (Game_move 100 "i1h" row_nearly_closed
          = Ret (mkGame (board row_closed) (players row_closed) (Some 6) true))
    as Hm by (vm_compute; reflexivity).
  exact (proj2 (proj2 (move_keeps_goals_and_fence_counts _ _ _ _ Hm))).
Defined.

(** X25.  A call of [Game.move] that comes back keeps the table of the
    board in the shape [Board.__init__] gave it and keeps every pawn on the
    board. *)
Theorem move_keeps_pawns_on_board fuel s g g' :
  Board_wf (board g) → pawns_on_board g →
  Game_move fuel s g = Ret g' →
  Board_wf (board g') ∧ pawns_on_board g'.
Proof.
  intros Hwf Hb [->|(m & ga & Hp & _ & Ha & He)]%Game_move_cases; [done|].
  apply Game_end_turn_cases in He as (Hbd & Hpl & _).
  pose proof (parsed_move_is_on_the_board_helper g s m Hwf Hp) as Hm.
  unfold pawns_on_board. rewrite Hbd, Hpl. clear Hbd Hpl.
  apply apply_cases in Ha as (_ & _ & Hboard & Hplayers).
  assert (Board_wf (board ga)
          ∧ ∀ sq, in_bounds (board ga) sq ↔ in_bounds (board g) sq)
    as [Hwf' Hsame].
  { destruct Hboard as [->|[->| ->]]; [done|..];
      (split; [by apply Board_wf_update|done]). }
  split; [done|]. intros player Hin. apply Hsame.
  destruct Hplayers as [Hsame'|(_ & index & Halter)];
    [rewrite Hsame' in Hin; by apply Hb|].
  rewrite Halter in Hin. apply list_elem_of_lookup in Hin as [i Hi].
  rewrite list_lookup_alter in Hi. case_decide.
  - destruct (players g !! index); [|done]. simpl in Hi. injection Hi as <-.
    exact Hm.
  - apply Hb. by eapply list_elem_of_lookup_2.
Qed.

Lemma move_keeps_pawns_on_board_witness :
  pawns_on_board
    (mkGame (board row_closed) (players row_closed) (Some 6) true).
Proof.
  assert (Game_move 100 "i1h" row_nearly_closed
          = Ret (mkGame (board row_closed) (players row_closed) (Some 6) true))
    as Hm by (vm_compute; reflexivity).
  assert (Board_wf (board row_nearly_closed)) as Hwf.
  { split; [reflexivity|]. repeat constructor. }
  assert (pawns_on_board row_nearly_closed) as Hb.
  { intros player Hp. change (players row_nearly_closed)
      with (players Game_start) in Hp. unfold Game_start in Hp.
    cbn [players] in Hp.
    apply elem_of_cons in Hp as [->|Hp];
      [|apply list_elem_of_singleton in Hp as ->];
      unfold in_bounds; simpl; lia. }
  exact (proj2 (move_keeps_pawns_on_board _ _ _ _ Hwf Hb Hm)).
Defined.

(** X26.  A call of [Game.move] that comes back has done one of three
    things: left the game as it was (the move was refused); found the pawn
    of the player to move on one of that player's goal squares, cleared
    [is_ingame] and left the turn counter alone; or added one to the turn
    counter and left [is_ingame] alone. *)
Theorem turn_advances_or_game_ends fuel s g g' :
  Game_move fuel s g = Ret g' →
  g' = g
  ∨ (∃ player, current_player g' = Ret player ∧ pawn player ∈ goals player)
    ∧ turn g' = turn g ∧ is_ingame g' = false
  ∨ turn g' = (fun t => t + 1) <$> turn g ∧ is_ingame g' = is_ingame g.
Proof.
  intros [->|(m & ga & _ & _ & Ha & He)]%Game_move_cases; [by left|].
  right. apply apply_cases in Ha as (Ht & Hi & _).
  apply Game_end_turn_cases in He
    as (_ & Hpl & [((player & Hcur & Hgoal) & Ht' & Hi')|[Ht' Hi']]).
  - left. split_and!; [|congruence|done]. exists player. split; [|done].
    revert Hcur. unfold current_player, current_index.
    by rewrite Hpl, Ht'.
  - right. split; congruence.
Qed.

Lemma turn_advances_or_game_ends_witness :
  let g' := mkGame (board row_closed) (players row_closed) (Some 6) true in
  g' = row_nearly_closed
  ∨ (∃ player, current_player g' = Ret player ∧ pawn player ∈ goals player)
    ∧ turn g' = turn row_nearly_closed ∧ is_ingame g' = false
  ∨ turn g' = (fun t => t + 1) <$> turn row_nearly_closed
    ∧ is_ingame g' = is_ingame row_nearly_closed.
Proof.
  apply (turn_advances_or_game_ends 100 "i1h" row_nearly_closed).
  vm_compute. reflexivity.
Defined.

Lemma Game_end_turn_is_ingame b ps t f1 f2 :
  match Game_end_turn (mkGame b ps t f1), Game_end_turn (mkGame b ps t f2) with
  | Ret r, Ret r2 =>
      board r2 = board r ∧ players r2 = players r ∧ turn r2 = turn r
  | Raise e, Raise e2 => e = e2
  | OutOfFuel, OutOfFuel => True
  | _, _ => False
  end.
Proof.
  unfold Game_end_turn, Game_end, Game_start_turn.
  cbn [board players turn is_ingame].
  change (current_player (mkGame b ps t f2))
    with (current_player (mkGame b ps t f1)).
  destruct (current_player (mkGame b ps t f1)) as [player| |];
    cbn [bind]; [|done|done].
  case_bool_decide; [done|].
  change (current_player (mkGame b ps ((fun t => t + 1) <$> t) f2))
    with (current_player (mkGame b ps ((fun t => t + 1) <$> t) f1)).
  by destruct (current_player (mkGame b ps _ f1)).
Qed.

(** X27.  [Game.move] never reads [is_ingame]: on two games that differ in
    that flag only it raises the same error or fails to come back alike, and
    when it comes back the boards, the players and the turn counters are
    the same.  A game that has ended still takes moves. *)
Theorem move_ignores_is_ingame fuel s g flag :
  let g2 := mkGame (board g) (players g) (turn g) flag in
  match Game_move fuel s g, Game_move fuel s g2 with
  | Ret r, Ret r2 =>
      board r2 = board r ∧ players r2 = players r ∧ turn r2 = turn r
  | Raise e, Raise e2 => e = e2
  | OutOfFuel, OutOfFuel => True
  | _, _ => False
  end.
Proof.
  destruct g as [b ps tr ig]. cbn [board players turn]. cbv zeta.
  unfold Game_move. cbn [turn].
  destruct tr as [t|]; [|done].
  set (g1 := mkGame b ps (Some t) ig). set (g2 := mkGame b ps (Some t) flag).
  change (Move_parse g2 s) with (Move_parse g1 s).
  destruct (Move_parse g1 s) as [m| |]; cbn [bind]; [|done|done].
  rewrite !st_check_valid_pure.
  assert (check_valid fuel g2 m = check_valid fuel g1 m) as ->
    by (by destruct m).
  destruct (check_valid fuel g1 m) as [[]| |]; cbn [bind fst snd];
    try done.
  - destruct m as [sq|sq|sq]; cbn [apply].
    + change (current_index g2) with (current_index g1).
      destruct (current_index g1) as [index| |]; cbn [bind]; [|done|done].
      unfold g1, g2. cbn [players board turn is_ingame].
      case_decide; [|done]. cbn [bind]. apply Game_end_turn_is_ingame.
    + cbn [bind]. apply Game_end_turn_is_ingame.
    + cbn [bind]. apply Game_end_turn_is_ingame.
  - unfold Game_start_turn. change (current_player g2)
      with (current_player g1).
    by destruct (current_player g1).
Qed.

(** X28.  In a started game with at least one player, whatever the value
    of the turn counter, the player to move is one of the players, and one
    turn later it is the next player of the list, the first coming after
    the last. *)
Theorem players_take_turns g t :
  players g ≠ [] → turn g = Some t →
  ∃ index player,
    current_index g = Ret index
    ∧ players g !! index = Some player
    ∧ current_player g = Ret player
    ∧ current_index (mkGame (board g) (players g) (Some (t + 1)) (is_ingame g))
      = Ret ((index + 1) `mod` length (players g))%nat.
Proof.
  intros Hne Ht. unfold current_player, current_index. rewrite Ht. simpl.
  set (n := Z.of_nat (length (players g))).
  assert (0 < n) as Hn.
  { unfold n. destruct (players g); [done|]. simpl length. lia. }
  assert ((n =? 0) = false) as -> by (apply Z.eqb_neq; lia).
  pose proof (Z.mod_pos_bound t n Hn) as Hmod.
  destruct (lookup_lt_is_Some_2 (players g) (Z.to_nat (t `mod` n)))
    as [player Hp]; [lia|].
  exists (Z.to_nat (t `mod` n)), player. simpl. rewrite Hp.
  split_and!; try done. f_equal. apply Nat2Z.inj.
  rewrite Nat2Z.inj_mod, Nat2Z.inj_add, !Z2Nat.id by
    (try apply Z.mod_pos_bound; lia).
  fold n. simpl. by rewrite Z.add_mod_idemp_l by lia.
Qed.

Lemma players_take_turns_witness :
  ∃ index player,
    current_index Game_start = Ret index
    ∧ players Game_start !! index = Some player
    ∧ current_player Game_start = Ret player
    ∧ current_index (mkGame (board Game_start) (players Game_start)
                       (Some (1 + 1)) (is_ingame Game_start))
      = Ret ((index + 1) `mod` length (players Game_start))%nat.
Proof.
  apply (players_take_turns Game_start 1); [discriminate|reflexivity].
Defined.
